(** * Factorized, regularized block conjugate gradient

    A shallow embedding of [factorizedCG]
    (core/src/main/cpp/factorizedCG.hpp), the solver of
    [(A^T A + lambda*n I) X = A^T Y] by conjugate gradients, all [k]
    right-hand sides advancing in lock step.

    The C++ function is a template over the matrix types; its scalar
    [value_type] is a template parameter too.  The embedding is therefore
    written once over a class [Scalar] of the scalar operations the code
    uses and instantiated twice: at IEEE binary64 (the kernel's primitive
    floats, so the model runs) and at the real numbers (exact arithmetic,
    in which the algebraic statements of the specification are read).

    A matrix is the list of its columns.  The dense primitives the code
    calls ([base::Gemm], [base::Axpy], [base::ColumnDot],
    [base::ColumnNrm2], [El::DiagonalScale], [base::Copy], [El::Zero])
    belong to libskylark and Elemental, whose headers are not among the
    sources; they are modelled from section 6 of the specification with
    their BLAS meaning, each as the new content of the object it writes.
    The log lines write nothing the solver reads and are left out of the
    loop body.  The guard of the per-iteration line takes a remainder by
    a caller-supplied number, so it is part of the loop: a call can end
    there without returning.  The numbers that line prints
    ([total_nrmb], [relres]) are modelled apart.  The contents of
    the profiling timers are not modelled; the number of
    [CG_SYMM_PROFILE] timed sections is kept as a counter, since each
    such section brackets one application of the normal-equation
    operator. *)

From Stdlib Require Import List ZArith Lia Bool Reals Lra Floats.
Import ListNotations.

Set Implicit Arguments.

(** ** Scalars *)

(** The operations [factorizedCG] and the primitives perform on
    [value_type]. [s_ge] is the C++ [>=] and [s_eq] the C++ [==]; [s_ge]
    is kept apart from [s_lt] because the two are not complementary on
    floating-point numbers. *)
Class Scalar (T : Type) : Type := {
  s_zero : T;
  s_one : T;
  s_add : T -> T -> T;
  s_sub : T -> T -> T;
  s_mul : T -> T -> T;
  s_div : T -> T -> T;
  s_neg : T -> T;
  s_sqrt : T -> T;
  s_lt : T -> T -> bool;
  s_ge : T -> T -> bool;
  s_eq : T -> T -> bool;
  s_of_index : Z -> T;
  s_epsilon : T
}.

(** [double]: IEEE 754 binary64. *)
#[export] Instance binary64 : Scalar float := {
  s_zero := 0%float;
  s_one := 1%float;
  s_add := PrimFloat.add;
  s_sub := PrimFloat.sub;
  s_mul := PrimFloat.mul;
  s_div := PrimFloat.div;
  s_neg := PrimFloat.opp;
  s_sqrt := PrimFloat.sqrt;
  s_lt := PrimFloat.ltb;
  s_ge := fun a b => PrimFloat.leb b a;
  s_eq := PrimFloat.eqb;
  s_of_index := fun z => PrimFloat.of_uint63 (Uint63.of_Z z);
  s_epsilon := 0x1p-52%float
}.

(** Exact arithmetic over the reals, with the machine epsilon of [double]. *)
#[export] Instance reals : Scalar R := {
  s_zero := 0%R;
  s_one := 1%R;
  s_add := Rplus;
  s_sub := Rminus;
  s_mul := Rmult;
  s_div := Rdiv;
  s_neg := Ropp;
  s_sqrt := R_sqrt.sqrt;
  s_lt := fun a b => if Rlt_dec a b then true else false;
  s_ge := fun a b => if Rge_dec a b then true else false;
  s_eq := fun a b => if Req_dec_T a b then true else false;
  s_of_index := IZR;
  s_epsilon := (/ 2 ^ 52)%R
}.

(** ** Lists *)

Section Lists.
Context {U V W : Type}.

Fixpoint zipWith (f : U -> V -> W) (u : list U) (v : list V) : list W :=
  match u, v with
  | a :: u', b :: v' => f a b :: zipWith f u' v'
  | _, _ => []
  end.
End Lists.

(** [imap f l] is [[f 0 l_0; f 1 l_1; ...]]. *)
Definition imap {U V : Type} (f : nat -> U -> V) (l : list U) : list V :=
  zipWith f (seq 0 (length l)) l.

(** ** Dense primitives and the solver *)

Inductive Orientation : Type := NORMAL | TRANSPOSE.
Inductive LeftOrRight : Type := LEFT | RIGHT.

Section Solver.
Context {T : Type} {SC : Scalar T}.

Definition Vector : Type := list T.
(** Column-major: the list of the columns. *)
Definition Matrix : Type := list Vector.

(** Modelled from the spec: [base::Width] and [base::Height] (base/base.hpp
    is not among the sources), the matrix height/width query of section
    6.  A matrix without columns has height zero here; no entry of the
    solver depends on [n] in that case. *)
Definition Width (M : Matrix) : nat := length M.
Definition Height (M : Matrix) : nat := length (hd [] M).
Definition entry (M : Matrix) (i j : nat) : T := nth i (nth j M []) s_zero.
Definition row (M : Matrix) (i : nat) : Vector :=
  map (fun c => nth i c s_zero) M.

(** [shaped h w M]: [M] has [w] columns of [h] entries each. *)
Definition shaped (h w : nat) (M : Matrix) : Prop :=
  length M = w /\ Forall (fun c => length c = h) M.

(** [r = 0; for l: r += u[l]*v[l]]. *)
Fixpoint dot_from (acc : T) (u v : Vector) : T :=
  match u, v with
  | a :: u', b :: v' => dot_from (s_add acc (s_mul a b)) u' v'
  | _, _ => acc
  end.
Definition dot (u v : Vector) : T := dot_from s_zero u v.

(** Row [i] and column [j] of [op(M)]. *)
Definition op_row (o : Orientation) (M : Matrix) (i : nat) : Vector :=
  match o with NORMAL => row M i | TRANSPOSE => nth i M [] end.
Definition op_col (o : Orientation) (M : Matrix) (j : nat) : Vector :=
  match o with NORMAL => nth j M [] | TRANSPOSE => row M j end.

(** Modelled from the spec: [base::Gemm(oA, oB, alpha, A, B, beta, C)]
    (base/base.hpp is not among the sources), the general matrix multiply
    with transpose flags and scalar pre/post-multipliers of section 6:
    [C := alpha * op(A) * op(B) + beta * C], entry by entry of [C]; as in
    BLAS, [C] is not read when [beta] is zero. *)
Definition Gemm (oA oB : Orientation) (alpha : T) (A B : Matrix) (beta : T)
    (C : Matrix) : Matrix :=
  imap (fun j c =>
    imap (fun i cij =>
      let ab := s_mul alpha (dot (op_row oA A i) (op_col oB B j)) in
      if s_eq beta s_zero then ab else s_add ab (s_mul beta cij)) c) C.

(** Modelled from the spec: [base::Axpy(alpha, X, Y)], the scaled vector
    addition with either a uniform or a per-column scalar of section 6.
    With one scalar: [Y := alpha * X + Y]. *)
Definition Axpy (alpha : T) (X Y : Matrix) : Matrix :=
  imap (fun j y =>
    imap (fun i yij => s_add (s_mul alpha (entry X i j)) yij) y) Y.

(** Modelled from the spec: [base::Axpy(alphas, X, Y)] with one scalar
    per column: [Y_j := alphas[j] * X_j + Y_j]. *)
Definition AxpyCols (alphas : Vector) (X Y : Matrix) : Matrix :=
  imap (fun j y =>
    imap (fun i yij =>
      s_add (s_mul (nth j alphas s_zero) (entry X i j)) yij) y) Y.

(** Modelled from the spec: [base::ColumnDot(A, B, out)], the per-column
    dot product into a scalar vector of section 6:
    [out[j] := A_j . B_j]. *)
Definition ColumnDot (A B : Matrix) (out : Vector) : Vector :=
  imap (fun j _ => dot (nth j A []) (nth j B [])) out.

(** Modelled from the spec: [base::ColumnNrm2(A, out)], the per-column
    Euclidean norm into a scalar vector of section 6:
    [out[j] := ||A_j||_2]. *)
Definition ColumnNrm2 (A : Matrix) (out : Vector) : Vector :=
  imap (fun j _ => s_sqrt (dot (nth j A []) (nth j A []))) out.

(** Modelled from the spec: [El::DiagonalScale], the per-column diagonal
    scaling of a block of section 6: with [RIGHT] it is
    [A := A * diag(d)], with [LEFT] it is [A := diag(d) * A]. *)
Definition DiagonalScale (side : LeftOrRight) (o : Orientation) (d : Vector)
    (A : Matrix) : Matrix :=
  imap (fun j c =>
    imap (fun i aij =>
      s_mul (nth (match side with RIGHT => j | LEFT => i end) d s_zero) aij)
      c) A.

(** Modelled from the spec: [scalar_cont_typer_t::build_compatible(k, 1,
    B)] (algorithms/Krylov/internal.hpp is not among the sources), a
    length-k vector, one value per right-hand-side column (section 3). *)
Definition build_compatible (k : nat) : Vector := repeat s_zero k.

(** Modelled from the spec: [El::Zero], the block zero of section 6. *)
Definition Zero (v : Vector) : Vector := map (fun _ => s_zero) v.

(** Modelled from the spec: [krylov_iter_params_t]
    (algorithms/Krylov/internal.hpp is not among the sources), the
    [IterationParams] of section 6 with the field names the code uses. *)
Record krylov_iter_params_t : Type := {
  tolerance : T;
  iter_lim : Z;
  am_i_printing : bool;
  log_level : Z;
  res_print : Z
}.

(** Lines 62-63. *)
Definition log_lev1 (params : krylov_iter_params_t) : bool :=
  am_i_printing params && (1 <=? log_level params)%Z.
Definition log_lev2 (params : krylov_iter_params_t) : bool :=
  am_i_printing params && (2 <=? log_level params)%Z.

(** Line 156, the guard of the per-iteration log line:
    [log_lev2 && (itn % params.res_print == 0 || convg == k)].  The
    remainder is taken exactly when [log_lev2] holds, and C++ leaves it
    undefined for a zero divisor, which is [None] here. *)
Definition log_guard (params : krylov_iter_params_t) (itn convg k : nat)
    : option bool :=
  if log_lev2 params then
    if (res_print params =? 0)%Z then None
    else Some ((Z.rem (Z.of_nat itn) (res_print params) =? 0)%Z
               || Nat.eqb convg k)
  else Some false.

(** Whether line 156 can be evaluated: the remainder is not taken, or
    its divisor is not zero.  It does not depend on the iteration. *)
Definition log_line_defined (params : krylov_iter_params_t) : bool :=
  negb (log_lev2 params) || negb (res_print params =? 0)%Z.

(** Modelled from the spec: [outplace_precond_t]
    (algorithms/Krylov/precond.hpp is not among the sources), the
    [Preconditioner] capability of sections 4.2 and 6.  [apply B X] is
    the new content of [X]. *)
Record outplace_precond_t : Type := {
  is_id : bool;
  apply : Matrix -> Matrix -> Matrix
}.

(** Modelled from the spec: [outplace_id_precond_t], the default
    argument, the identity transform of section 2: [apply] copies. *)
Definition outplace_id_precond_t : outplace_precond_t :=
  {| is_id := true; apply := fun B _ => B |}.

(** [sol_type &Z = !isprecond ? R : *(new sol_type(X))]: the
    preconditioned residual is either another name of [R] or a block
    of its own. *)
Inductive Zblock : Type :=
| Zaliased
| Zowned (z : Matrix).

(** The variables of [factorizedCG] that the loop reads or writes, and
    the number of [CG_SYMM_PROFILE] timed sections entered so far. *)
Record cg_state : Type := {
  cgX : Matrix;
  cgB : Matrix;
  hermIntermed : Matrix;
  cgP : Matrix;
  cgR : Matrix;
  cgQ : Matrix;
  cgZ : Zblock;
  nrmb : Vector;
  ressqr : Vector;
  rho : Vector;
  rho0 : Vector;
  rhotmp : Vector;
  alpha : Vector;
  malpha : Vector;
  beta : Vector;
  cg_tolerance : T;
  symm_sections : nat
}.

(** What the reference [Z] denotes, given the content of [R]. *)
Definition Zval (R1 : Matrix) (z : Zblock) : Matrix :=
  match z with Zaliased => R1 | Zowned m => m end.

(** A write of [m] through the reference [Z]: the new contents of [R]
    and of [Z]. *)
Definition Zwrite (R1 : Matrix) (z : Zblock) (m : Matrix)
    : Matrix * Zblock :=
  match z with Zaliased => (m, Zaliased) | Zowned _ => (R1, Zowned m) end.

(** Line 74: [eps = 32*std::numeric_limits<value_type>::epsilon()]. *)
Definition eps32 : T := s_mul (s_of_index 32) s_epsilon.

(** Lines 75-77. *)
Definition clamp_tolerance (tol : T) : T :=
  let eps := eps32 in
  if s_lt tol eps then eps
  else if s_ge tol s_one then s_sub s_one eps
  else tol.

(** The band of the specification, [32 eps <= t <= 1 - 32 eps], with
    the comparisons of the scalar type. *)
Definition in_band (t : T) : bool :=
  s_ge t eps32 && s_ge (s_sub s_one eps32) t.

(** Line 152, the test of column [i]:
    [sqrt(ressqr[i]) < (params.tolerance*nrmb[i])]. *)
Definition column_converged (s : cg_state) (i : nat) : bool :=
  s_lt (s_sqrt (nth i (ressqr s) s_zero))
       (s_mul (cg_tolerance s) (nth i (nrmb s) s_zero)).

(** Lines 150-154: [convg], the number of columns that pass the test. *)
Definition count_converged (k : nat) (s : cg_state) : nat :=
  length (filter (column_converged s) (seq 0 k)).

(** The two values of [ret]. *)
Definition Success : Z := (-1)%Z.
Definition IterationLimitExceeded : Z := (-6)%Z.

Section Run.
Variables (A : Matrix) (lambda : T) (M : outplace_precond_t).
Variables (n k : nat) (isprecond : bool).
Variable params : krylov_iter_params_t.

(** Lines 107-116, the blocks: [M.apply(R, Z)] or [base::Copy(R, Z)],
    a write through [Z] in both cases.  The result is the new contents
    of [R] and [Z]. *)
Definition precondition (s : cg_state) : Matrix * Zblock :=
  if isprecond
  then Zwrite (cgR s) (cgZ s) (apply M (cgR s) (Zval (cgR s) (cgZ s)))
  else Zwrite (cgR s) (cgZ s) (cgR s).

(** Lines 107-148: the loop body up to the recomputation of
    [ressqr]. *)
Definition cg_body (itn : nat) (s : cg_state) : cg_state :=
  let R2 := fst (precondition s) in
  let Z1 := snd (precondition s) in
  let rho1 := if isprecond then ColumnDot R2 (Zval R2 Z1) (rho s)
            else ressqr s in
  let beta1 :=
    if Nat.eqb itn 0 then Zero (beta s)
    else map (fun i => s_div (nth i rho1 s_zero) (nth i (rho0 s) s_zero))
             (seq 0 k) in
  let P1 := DiagonalScale RIGHT NORMAL beta1 (cgP s) in
  let P2 := Axpy s_one (Zval R2 Z1) P1 in
  let H1 := Gemm NORMAL NORMAL s_one A P2 s_zero (hermIntermed s) in
  let Q1 := Gemm TRANSPOSE NORMAL s_one A H1 s_zero (cgQ s) in
  let Q2 := Axpy (s_mul lambda (s_of_index (Z.of_nat n))) P2 Q1 in
  let rhotmp1 := ColumnDot P2 Q2 (rhotmp s) in
  let alpha1 :=
    map (fun i => s_div (nth i rho1 s_zero) (nth i rhotmp1 s_zero))
        (seq 0 k) in
  let malpha1 := map s_neg alpha1 in
  let X1 := AxpyCols alpha1 P2 (cgX s) in
  let R3 := AxpyCols malpha1 Q2 R2 in
  {| cgX := X1; cgB := cgB s; hermIntermed := H1; cgP := P2; cgR := R3;
     cgQ := Q2; cgZ := Z1; nrmb := nrmb s;
     ressqr := ColumnDot R3 R3 (ressqr s); rho := rho1; rho0 := rho1;
     rhotmp := rhotmp1; alpha := alpha1; malpha := malpha1;
     beta := beta1; cg_tolerance := cg_tolerance s;
     symm_sections := S (symm_sections s) |}.

(** Line 164: [convg == k]. *)
Definition all_converged (s : cg_state) : bool :=
  Nat.eqb (count_converged k s) k.

(** Lines 106-174: [left] iterations remain, [itn] is the loop
    counter.  The result is the value the call returns, the number of
    passes through the loop body and the final state.  Between the count
    of the converged columns and the test [convg == k] stands the guard
    of the log line, line 156, which takes [itn % params.res_print]
    whenever [log_lev2] holds.  For a zero [res_print] the remainder is
    undefined in C++; the program is stopped there (a division trap) and
    returns nothing, which is [None]. *)
Fixpoint cg_loop (left itn : nat) (s : cg_state)
    : option Z * nat * cg_state :=
  match left with
  | O => (Some IterationLimitExceeded, itn, s)
  | S left' =>
      let s' := cg_body itn s in
      match log_guard params itn (count_converged k s') k with
      | None => (None, S itn, s')
      | Some _ =>
          if all_converged s' then (Some Success, S itn, s')
          else cg_loop left' (S itn) s'
      end
  end.

(** The state after [j] passes through the loop body. *)
Fixpoint state_at (j : nat) (s : cg_state) : cg_state :=
  match j with
  | O => s
  | S j' => cg_body j' (state_at j' s)
  end.
End Run.

(** Lines 66-104: everything before the loop. *)
Definition cg_init (A Y X : Matrix) (lambda : T)
    (params : krylov_iter_params_t) (M : outplace_precond_t) : cg_state :=
  let n := Height A in
  let B0 := X in
  let H0 := Y in
  let B1 := Gemm TRANSPOSE NORMAL s_one A Y s_zero B0 in
  let tol := clamp_tolerance (tolerance params) in
  let P0 := X in
  let R0 := B1 in
  let Q0 := B1 in
  let isprecond := negb (is_id M) in
  let Z0 := if isprecond then Zowned X else Zaliased in
  let H1 := Gemm NORMAL NORMAL s_one A X s_zero H0 in
  let R1 := Gemm TRANSPOSE NORMAL (s_neg s_one) A H1 s_one R0 in
  let R2 := Axpy (s_neg (s_mul lambda (s_of_index (Z.of_nat n)))) X R1 in
  let nrmb0 := ColumnNrm2 B1 (build_compatible (Width Y)) in
  {| cgX := X; cgB := B1; hermIntermed := H1; cgP := P0; cgR := R2;
     cgQ := Q0; cgZ := Z0; nrmb := nrmb0;
     ressqr := ColumnDot R2 R2 nrmb0; rho := nrmb0; rho0 := nrmb0;
     rhotmp := nrmb0; alpha := nrmb0; malpha := nrmb0; beta := nrmb0;
     cg_tolerance := tol; symm_sections := 1 |}.

(** [factorizedCG(A, Y, X, lambda, log, params, M)].  The model has one
    matrix type, so [std::is_same<sol_type, rhs_type>::value] holds and
    [isprecond] is [!M.is_id()]. *)
Definition factorizedCG (A Y X : Matrix) (lambda : T)
    (params : krylov_iter_params_t) (M : outplace_precond_t)
    : option Z * nat * cg_state :=
  cg_loop A lambda M (Height A) (Width Y) (negb (is_id M)) params
    (Z.to_nat (iter_lim params)) 0 (cg_init A Y X lambda params M).

(** The three components of the result: the returned value, [None]
    when the call does not return, the number of passes through the
    loop body and the state the call ends in. *)
Definition ret_of (r : option Z * nat * cg_state) : option Z :=
  fst (fst r).
Definition iterations_of (r : option Z * nat * cg_state) : nat :=
  snd (fst r).
Definition final_of (r : option Z * nat * cg_state) : cg_state := snd r.

(** ** Shapes *)

(** The preconditioner returns a block of the shape it is given. *)
Definition precond_shaped (M : outplace_precond_t) (d k : nat) : Prop :=
  forall R1 z, shaped d k R1 -> shaped d k z -> shaped d k (apply M R1 z).

(** The shapes of the blocks and containers, and which kind of [Z] goes
    with which path. *)
Definition wf_state (M : outplace_precond_t) (n d k : nat) (s : cg_state)
    : Prop :=
  shaped d k (cgX s) /\ shaped d k (cgP s) /\ shaped d k (cgR s) /\
  shaped d k (cgQ s) /\ shaped n k (hermIntermed s) /\
  match cgZ s with
  | Zaliased => negb (is_id M) = false
  | Zowned z => negb (is_id M) = true /\ shaped d k z
  end /\
  length (ressqr s) = k /\ length (rho s) = k /\ length (rhotmp s) = k.

(** The preconditioned residual of lines 107-116: [M.apply(R)], or [R]
    itself. *)
Definition Z_of (M : outplace_precond_t) (s : cg_state) : Matrix :=
  if negb (is_id M) then apply M (cgR s) (Zval (cgR s) (cgZ s)) else cgR s.

(** ** Inputs of the examples *)

(** The [m] by [m] identity matrix and the [h] by [w] zero matrix. *)
Definition identity (m : nat) : Matrix :=
  map (fun j => map (fun i => if Nat.eqb i j then s_one else s_zero) (seq 0 m))
      (seq 0 m).

Definition zero_matrix (h w : nat) : Matrix :=
  map (fun _ => map (fun _ => s_zero) (seq 0 h)) (seq 0 w).

End Solver.


(** ** The specification side, in exact arithmetic *)

Section Specification.
Local Open Scope R_scope.

(** [rsum m f] is the sum of [f l] over [l < m]. *)
Fixpoint rsum (m : nat) (f : nat -> R) : R :=
  match m with
  | O => 0
  | S m' => rsum m' f + f m'
  end.

(** The entry [(i, j)] of [A^T Y], in the words of the specification:
    the sum over the [n] rows [l] of [A_li * Y_lj]. *)
Definition AtY (A Y : Matrix (T:=R)) (n i j : nat) : R :=
  rsum n (fun l => entry A l i * entry Y l j).

(** The entry [(i, j)] of [(A^T A + lambda*n I) V] for [A] of [n] rows
    and [d] columns, in the words of the specification. *)
Definition normal_op (A : Matrix (T:=R)) (lambda : R) (n d : nat)
    (V : Matrix (T:=R)) (i j : nat) : R :=
  rsum n (fun l => entry A l i * rsum d (fun m => entry A l m * entry V m j))
  + lambda * INR n * entry V i j.

(** [A^T (A V)], the two [Gemm] calls through [hermIntermed]. *)
Definition gram (A : Matrix (T:=R)) (n d : nat) (V : Matrix (T:=R))
    (i j : nat) : R :=
  rsum n (fun l => entry A l i * rsum d (fun m => entry A l m * entry V m j)).

(** What the specification says of the state before the loop (section
    3): [B = A^T Y] and [R = B - (A^T A + lambda*n I) X]. *)
Definition spec_initial (A Y X : Matrix (T:=R)) (lambda : R) (n d k : nat)
    (s : cg_state (T:=R)) : Prop :=
  forall i j, (i < d)%nat -> (j < k)%nat ->
    entry (cgB s) i j = AtY A Y n i j /\
    entry (cgR s) i j = entry (cgB s) i j - normal_op A lambda n d X i j.

(** One pass of the per-iteration algorithm of the specification
    (section 4.4, steps 3 to 6) from [s] to [s'], entry by entry; [Z] is
    the preconditioned residual of step 1. *)
Definition spec_iteration (A : Matrix (T:=R)) (lambda : R) (n d k : nat)
    (Z : Matrix (T:=R)) (s s' : cg_state (T:=R)) : Prop :=
  forall i c, (i < d)%nat -> (c < k)%nat ->
    entry (cgP s') i c = entry (cgP s) i c * nth c (beta s') 0 + entry Z i c /\
    entry (cgQ s') i c = normal_op A lambda n d (cgP s') i c /\
    nth c (rhotmp s') 0
    = rsum d (fun m => entry (cgP s') m c * entry (cgQ s') m c) /\
    nth c (alpha s') 0 = nth c (rho s') 0 / nth c (rhotmp s') 0 /\
    entry (cgX s') i c
    = entry (cgX s) i c + entry (cgP s') i c * nth c (alpha s') 0 /\
    entry (cgR s') i c
    = entry (cgR s) i c - entry (cgQ s') i c * nth c (alpha s') 0.

(** The squared norm of column [c] of [Y]. *)
Definition sqnorm (m : nat) (Y : Matrix (T:=R)) (c : nat) : R :=
  rsum m (fun i => entry Y i c * entry Y i c).

End Specification.

(** ** Example runs *)

Definition quiet_params {T : Type} (tol : T) (lim : Z)
    : krylov_iter_params_t (T:=T) :=
  {| tolerance := tol; iter_lim := lim; am_i_printing := false;
     log_level := 0; res_print := 10 |}.

(** [A = diag(1, 2)], one right-hand side [Y = (1, 1)], [X = 0],
    [lambda = 0], no preconditioner: conjugate gradients need two
    iterations. *)
Section Diag12.
Context {T : Type} {SC : Scalar T}.
Variables (tol : T) (lim : Z).

Definition diag12_A : Matrix (T:=T) :=
  [[s_one; s_zero]; [s_zero; s_add s_one s_one]].
Definition diag12_Y : Matrix (T:=T) := [[s_one; s_one]].
Definition diag12_X : Matrix (T:=T) := [[s_zero; s_zero]].

Definition diag12_init : cg_state (T:=T) :=
  cg_init diag12_A diag12_Y diag12_X s_zero (quiet_params tol lim)
    outplace_id_precond_t.
Definition diag12_at (j : nat) : cg_state (T:=T) :=
  state_at diag12_A s_zero outplace_id_precond_t (Height diag12_A)
    (Width diag12_Y) (negb (is_id (outplace_id_precond_t (T:=T)))) j
    diag12_init.
Definition diag12_run : option Z * nat * cg_state (T:=T) :=
  factorizedCG diag12_A diag12_Y diag12_X s_zero (quiet_params tol lim)
    outplace_id_precond_t.
End Diag12.

(** The identity design of order one with the zero right-hand side:
    [A = (1)], [Y = (0)], [X = (0)], [lambda = 0], no preconditioner. *)
Section Zero_rhs.
Context {T : Type} {SC : Scalar T}.
Variables (tol : T) (lim : Z).

Definition zero_rhs_Y : Matrix (T:=T) := [[s_zero]].

Definition zero_rhs_init : cg_state (T:=T) :=
  cg_init (identity 1) zero_rhs_Y (zero_matrix 1 1) s_zero
    (quiet_params tol lim) outplace_id_precond_t.
Definition zero_rhs_at (j : nat) : cg_state (T:=T) :=
  state_at (identity 1) s_zero outplace_id_precond_t
    (Height (identity (T:=T) 1)) (Width zero_rhs_Y)
    (negb (is_id (outplace_id_precond_t (T:=T)))) j zero_rhs_init.
Definition zero_rhs_run : option Z * nat * cg_state (T:=T) :=
  factorizedCG (identity 1) zero_rhs_Y (zero_matrix 1 1) s_zero
    (quiet_params tol lim) outplace_id_precond_t.
End Zero_rhs.

(** ** The exit, single columns and the numbers of the log line *)

Section Solver_parts.
Context {T : Type} {SC : Scalar T}.

(** Lines 176-178, [if (isprecond) delete &Z]: what the single exit
    releases.  [Z] is a reference; deleting it when it is another name of
    the automatic variable [R] would be undefined, which is
    [ReleaseAlias]. *)
Inductive release : Type :=
| ReleaseNothing
| ReleaseOwned (z : Matrix (T:=T))
| ReleaseAlias.

Definition cleanup (isprecond : bool) (z : Zblock (T:=T)) : release :=
  if isprecond then
    match z with
    | Zowned m => ReleaseOwned m
    | Zaliased => ReleaseAlias
    end
  else ReleaseNothing.

(** Line 81: [isprecond] also holds for an identity transform, when
    [sol_type] and [rhs_type] differ.  In the model, where [isprecond] is
    [!M.is_id()], a preconditioner that copies like
    [outplace_id_precond_t] but answers [false] to [is_id] takes that
    path. *)
Definition copy_precond : outplace_precond_t (T:=T) :=
  {| is_id := false; apply := fun B _ => B |}.

(** The state with another [Z]. *)
Definition set_Z (z : Zblock (T:=T)) (s : cg_state (T:=T)) : cg_state :=
  {| cgX := cgX s; cgB := cgB s; hermIntermed := hermIntermed s;
     cgP := cgP s; cgR := cgR s; cgQ := cgQ s; cgZ := z; nrmb := nrmb s;
     ressqr := ressqr s; rho := rho s; rho0 := rho0 s; rhotmp := rhotmp s;
     alpha := alpha s; malpha := malpha s; beta := beta s;
     cg_tolerance := cg_tolerance s; symm_sections := symm_sections s |}.

(** Column [j] of a block as a block of one column, entry [j] of a
    container as a container of one scalar, and the state of column [j]
    alone. *)
Definition column (M : Matrix (T:=T)) (j : nat) : Matrix := [nth j M []].
Definition component (v : Vector (T:=T)) (j : nat) : Vector :=
  [nth j v s_zero].
Definition column_Z (z : Zblock (T:=T)) (j : nat) : Zblock :=
  match z with Zaliased => Zaliased | Zowned m => Zowned (column m j) end.
Definition column_state (j : nat) (s : cg_state (T:=T)) : cg_state :=
  {| cgX := column (cgX s) j; cgB := column (cgB s) j;
     hermIntermed := column (hermIntermed s) j; cgP := column (cgP s) j;
     cgR := column (cgR s) j; cgQ := column (cgQ s) j;
     cgZ := column_Z (cgZ s) j; nrmb := component (nrmb s) j;
     ressqr := component (ressqr s) j; rho := component (rho s) j;
     rho0 := component (rho0 s) j; rhotmp := component (rhotmp s) j;
     alpha := component (alpha s) j; malpha := component (malpha s) j;
     beta := component (beta s) j; cg_tolerance := cg_tolerance s;
     symm_sections := symm_sections s |}.

(** Lines 96-101, for [value_type = double]:
    [total_nrmb = sqrt(sum of nrmb[i] * nrmb[i])], accumulated from
    [0.0] in the order of the columns. *)
Definition total_nrmb (k : nat) (nrmb0 : Vector (T:=T)) : T :=
  s_sqrt
    (fold_left
       (fun acc i =>
          s_add acc (s_mul (nth i nrmb0 s_zero) (nth i nrmb0 s_zero)))
       (seq 0 k) s_zero).

(** Lines 157-160, the number that the per-iteration log line prints:
    [relres = sqrt(sum of ressqr[i]) / total_nrmb]. *)
Definition relres (k : nat) (total : T) (s : cg_state (T:=T)) : T :=
  s_div
    (s_sqrt
       (fold_left (fun acc i => s_add acc (nth i (ressqr s) s_zero))
          (seq 0 k) s_zero))
    total.

(** On the preconditioned path [rho] is recomputed from [R] and [Z]; with
    [Z] a copy of [R] it would be [ressqr]. *)
Definition rho_is_ressqr (s : cg_state (T:=T)) : Prop :=
  ColumnDot (cgR s) (cgR s) (rho s) = ressqr s.

(** Every block and container the unpreconditioned loop writes has [k]
    columns or entries. *)
Definition wide (k : nat) (s : cg_state (T:=T)) : Prop :=
  length (cgX s) = k /\ length (cgP s) = k /\ length (cgR s) = k /\
  length (cgQ s) = k /\ length (hermIntermed s) = k /\
  length (ressqr s) = k /\ length (rhotmp s) = k.
End Solver_parts.

(** ** The residual of the normal equations and the energy *)

Section Specification_parts.
Local Open Scope R_scope.
(** The residual of the normal equations at [X], in the words of the header
    comment: the entry [(i, c)] of [A^T Y - (A^T A + lambda*n I) X]. *)
Definition true_residual (A Y : Matrix (T:=R)) (lambda : R) (n d : nat)
    (X : Matrix (T:=R)) (i c : nat) : R :=
  AtY A Y n i c - normal_op A lambda n d X i c.

(** The Euclidean norms of column [c] of that residual and of [A^T Y]. *)
Definition residual_norm (A Y : Matrix (T:=R)) (lambda : R) (n d : nat)
    (X : Matrix (T:=R)) (c : nat) : R :=
  R_sqrt.sqrt (rsum d (fun i => true_residual A Y lambda n d X i c
                         * true_residual A Y lambda n d X i c)).
Definition rhs_norm (A Y : Matrix (T:=R)) (n d c : nat) : R :=
  R_sqrt.sqrt (rsum d (fun i => AtY A Y n i c * AtY A Y n i c)).

(** [P_c^T (A^T A + lambda*n I) P_c] written as a sum of squares:
    [||A P_c||^2 + lambda*n ||P_c||^2]. *)
Definition energy (A : Matrix (T:=R)) (lambda : R) (n d : nat)
    (P : Matrix (T:=R)) (c : nat) : R :=
  rsum n (fun l => rsum d (fun m => entry A l m * entry P m c)
                   * rsum d (fun m => entry A l m * entry P m c))
  + lambda * INR n * sqnorm d P c.
End Specification_parts.

(** ** Facts that hold for every scalar type *)

Section Lists_facts.
Context {U V W : Type}.

Lemma zipWith_length (f : U -> V -> W) u v :
  length (zipWith f u v) = Nat.min (length u) (length v).
Proof.
  revert v; induction u as [|a u IH]; intros [|b v]; simpl; auto.
Qed.

Lemma zipWith_nth (f : U -> V -> W) u v i du dv dw :
  i < length u -> i < length v ->
  nth i (zipWith f u v) dw = f (nth i u du) (nth i v dv).
Proof.
  revert v i; induction u as [|a u IH]; intros [|b v] [|i]; simpl;
    try lia; auto.
  intros Hu Hv; apply IH; lia.
Qed.

Lemma filter_all_length (f : U -> bool) l :
  length (filter f l) = length l <-> forall x, In x l -> f x = true.
Proof.
  induction l as [|a l IH]; simpl.
  - split; [intros _ x [] | reflexivity].
  - pose proof (filter_length_le f l) as Hle.
    destruct (f a) eqn:Ha; simpl; split.
    + intros H x [<-|Hx]; [assumption|]. apply IH; [lia | assumption].
    + intros H. f_equal. apply IH. auto.
    + intros H. lia.
    + intros H. specialize (H a (or_introl eq_refl)). congruence.
Qed.

Lemma forallb_false_ex (f : U -> bool) l :
  forallb f l = false -> exists x, In x l /\ f x = false.
Proof.
  induction l as [|a l IH]; simpl; [discriminate|].
  destruct (f a) eqn:Ha; simpl.
  - intros H. destruct (IH H) as (x & Hx & Hf). exists x; auto.
  - intros _. exists a; auto.
Qed.
End Lists_facts.

Lemma imap_length {U V : Type} (f : nat -> U -> V) l :
  length (imap f l) = length l.
Proof. unfold imap. rewrite zipWith_length, length_seq. lia. Qed.

Lemma imap_nth {U V : Type} (f : nat -> U -> V) l i du dv :
  i < length l -> nth i (imap f l) dv = f i (nth i l du).
Proof.
  intros Hi. unfold imap.
  rewrite (zipWith_nth f _ _ 0 du) by (rewrite ?length_seq; lia).
  now rewrite seq_nth.
Qed.

Section Primitive_facts.
Context {T : Type} {SC : Scalar T}.
Implicit Types (A B C X Y M N : Matrix (T:=T)) (u v out : Vector (T:=T)).

Lemma shaped_col h w M j : shaped h w M -> j < w -> length (nth j M []) = h.
Proof.
  intros (Hw & Hh) Hj. rewrite Forall_forall in Hh.
  apply Hh, nth_In. lia.
Qed.

Lemma shaped_imap h w (f : nat -> Vector (T:=T) -> Vector (T:=T)) M :
  shaped h w M -> (forall j c, length (f j c) = length c) ->
  shaped h w (imap f M).
Proof.
  intros (Hw & Hh) Hf. split; [now rewrite imap_length|].
  rewrite Forall_forall in *. intros c Hc.
  destruct (In_nth _ _ [] Hc) as (j & Hj & <-).
  rewrite imap_length in Hj.
  rewrite (imap_nth f M [] []) by exact Hj.
  rewrite Hf. apply Hh, nth_In, Hj.
Qed.

Lemma entry_imap h w (g : nat -> nat -> T -> T) M i j :
  shaped h w M -> i < h -> j < w ->
  entry (imap (fun j c => imap (fun i x => g i j x) c) M) i j
  = g i j (entry M i j).
Proof.
  intros HM Hi Hj. unfold entry.
  rewrite (imap_nth _ M [] []) by (destruct HM; lia).
  rewrite (imap_nth _ _ s_zero s_zero)
    by (rewrite (shaped_col HM Hj); exact Hi).
  reflexivity.
Qed.

Lemma matrix_ext h w M N :
  shaped h w M -> shaped h w N ->
  (forall i j, i < h -> j < w -> entry M i j = entry N i j) -> M = N.
Proof.
  intros HM HN He.
  apply (nth_ext M N [] []); [destruct HM, HN; lia|].
  intros j Hj. assert (j < w) as Hj' by (destruct HM; lia).
  apply (nth_ext _ _ s_zero s_zero);
    [rewrite (shaped_col HM Hj'), (shaped_col HN Hj'); reflexivity|].
  intros i Hi. rewrite (shaped_col HM Hj') in Hi. now apply He.
Qed.

Lemma shaped_Gemm h w oA oB al A B be C :
  shaped h w C -> shaped h w (Gemm oA oB al A B be C).
Proof.
  intros HC. apply shaped_imap; [exact HC|]. intros; apply imap_length.
Qed.

Lemma entry_Gemm h w oA oB al A B be C i j :
  shaped h w C -> i < h -> j < w ->
  entry (Gemm oA oB al A B be C) i j
  = if s_eq be s_zero
    then s_mul al (dot (op_row oA A i) (op_col oB B j))
    else s_add (s_mul al (dot (op_row oA A i) (op_col oB B j)))
               (s_mul be (entry C i j)).
Proof.
  intros HC Hi Hj. unfold Gemm.
  exact (entry_imap
    (fun i j x => if s_eq be s_zero
       then s_mul al (dot (op_row oA A i) (op_col oB B j))
       else s_add (s_mul al (dot (op_row oA A i) (op_col oB B j)))
                  (s_mul be x)) HC Hi Hj).
Qed.

Lemma shaped_Axpy h w a X Y : shaped h w Y -> shaped h w (Axpy a X Y).
Proof.
  intros HY. apply shaped_imap; [exact HY|]. intros; apply imap_length.
Qed.

Lemma entry_Axpy h w a X Y i j :
  shaped h w Y -> i < h -> j < w ->
  entry (Axpy a X Y) i j = s_add (s_mul a (entry X i j)) (entry Y i j).
Proof.
  intros HY Hi Hj.
  exact (entry_imap (fun i j y => s_add (s_mul a (entry X i j)) y) HY Hi Hj).
Qed.

Lemma shaped_AxpyCols h w al X Y : shaped h w Y -> shaped h w (AxpyCols al X Y).
Proof.
  intros HY. apply shaped_imap; [exact HY|]. intros; apply imap_length.
Qed.

Lemma entry_AxpyCols h w al X Y i j :
  shaped h w Y -> i < h -> j < w ->
  entry (AxpyCols al X Y) i j
  = s_add (s_mul (nth j al s_zero) (entry X i j)) (entry Y i j).
Proof.
  intros HY Hi Hj.
  exact (entry_imap
    (fun i j y => s_add (s_mul (nth j al s_zero) (entry X i j)) y) HY Hi Hj).
Qed.

Lemma shaped_DiagonalScale h w side o d A :
  shaped h w A -> shaped h w (DiagonalScale side o d A).
Proof.
  intros HA. apply shaped_imap; [exact HA|]. intros; apply imap_length.
Qed.

Lemma entry_DiagonalScale_right h w o d A i j :
  shaped h w A -> i < h -> j < w ->
  entry (DiagonalScale RIGHT o d A) i j
  = s_mul (nth j d s_zero) (entry A i j).
Proof.
  intros HA Hi Hj.
  exact (entry_imap (fun i j x => s_mul (nth j d s_zero) x) HA Hi Hj).
Qed.

Lemma ColumnDot_length A B out : length (ColumnDot A B out) = length out.
Proof. apply imap_length. Qed.

Lemma ColumnDot_nth A B out j :
  j < length out ->
  nth j (ColumnDot A B out) s_zero = dot (nth j A []) (nth j B []).
Proof. intros Hj. unfold ColumnDot. now rewrite (imap_nth _ out s_zero). Qed.

Lemma ColumnNrm2_length A out : length (ColumnNrm2 A out) = length out.
Proof. apply imap_length. Qed.

Lemma ColumnNrm2_nth A out j :
  j < length out ->
  nth j (ColumnNrm2 A out) s_zero = s_sqrt (dot (nth j A []) (nth j A [])).
Proof. intros Hj. unfold ColumnNrm2. now rewrite (imap_nth _ out s_zero). Qed.

Lemma build_compatible_length k : length (build_compatible k) = k.
Proof. apply repeat_length. Qed.
End Primitive_facts.

Lemma nth_map_seq {U : Type} (f : nat -> U) k i d :
  i < k -> nth i (map f (seq 0 k)) d = f i.
Proof.
  intros Hi.
  rewrite (nth_indep _ d (f 0)) by (rewrite length_map, length_seq; lia).
  rewrite map_nth, seq_nth by lia. reflexivity.
Qed.

Section Body_facts.
Context {T : Type} {SC : Scalar T}.
Variables (A : Matrix (T:=T)) (lambda : T) (M : outplace_precond_t (T:=T)).
Variables (n k : nat) (isprecond : bool).

Abbreviation body := (cg_body A lambda M n k isprecond).
Abbreviation at_ := (state_at A lambda M n k isprecond).

Lemma Zero_nth (v : Vector) i : nth i (Zero v) s_zero = s_zero.
Proof.
  revert i; induction v as [|a v IH]; intros [|i]; simpl; auto.
Qed.

Lemma body_beta_first s : beta (body 0 s) = Zero (beta s).
Proof. reflexivity. Qed.

Lemma body_beta_later itn s i :
  i < k ->
  nth i (beta (body (S itn) s)) s_zero
  = s_div (nth i (rho (body (S itn) s)) s_zero) (nth i (rho0 s) s_zero).
Proof. intros Hi. simpl. now rewrite nth_map_seq. Qed.

Lemma body_alpha itn s i :
  i < k ->
  nth i (alpha (body itn s)) s_zero
  = s_div (nth i (rho (body itn s)) s_zero)
          (nth i (rhotmp (body itn s)) s_zero).
Proof. intros Hi. simpl. now rewrite nth_map_seq. Qed.

Lemma body_rho0 itn s : rho0 (body itn s) = rho (body itn s).
Proof. reflexivity. Qed.

Lemma body_P itn s :
  cgP (body itn s)
  = Axpy s_one
      (Zval (fst (precondition M isprecond s))
            (snd (precondition M isprecond s)))
      (DiagonalScale RIGHT NORMAL (beta (body itn s)) (cgP s)).
Proof. reflexivity. Qed.

Lemma body_Q itn s :
  cgQ (body itn s)
  = Axpy (s_mul lambda (s_of_index (Z.of_nat n))) (cgP (body itn s))
      (Gemm TRANSPOSE NORMAL s_one A
         (Gemm NORMAL NORMAL s_one A (cgP (body itn s)) s_zero
            (hermIntermed s))
         s_zero (cgQ s)).
Proof. reflexivity. Qed.

Lemma body_rhotmp itn s :
  rhotmp (body itn s)
  = ColumnDot (cgP (body itn s)) (cgQ (body itn s)) (rhotmp s).
Proof. reflexivity. Qed.

Lemma body_rho_plain itn s :
  isprecond = false -> rho (body itn s) = ressqr s.
Proof. unfold cg_body. intros ->. reflexivity. Qed.

Lemma body_malpha itn s : malpha (body itn s) = map s_neg (alpha (body itn s)).
Proof. reflexivity. Qed.

Lemma body_X itn s :
  cgX (body itn s) = AxpyCols (alpha (body itn s)) (cgP (body itn s)) (cgX s).
Proof. reflexivity. Qed.

Lemma body_R itn s :
  cgR (body itn s)
  = AxpyCols (malpha (body itn s)) (cgQ (body itn s))
      (fst (precondition M isprecond s)).
Proof. reflexivity. Qed.

Lemma body_alpha_length itn s : length (alpha (body itn s)) = k.
Proof. simpl. now rewrite length_map, length_seq. Qed.


Lemma body_ressqr itn s i :
  i < length (ressqr s) ->
  nth i (ressqr (body itn s)) s_zero
  = dot (nth i (cgR (body itn s)) []) (nth i (cgR (body itn s)) []).
Proof. intros Hi. apply ColumnDot_nth, Hi. Qed.

End Body_facts.

Section Loop_facts.
Context {T : Type} {SC : Scalar T}.
Variables (A : Matrix (T:=T)) (lambda : T) (M : outplace_precond_t (T:=T)).
Variables (n k : nat) (isprecond : bool).
Variable params : krylov_iter_params_t (T:=T).

Abbreviation body := (cg_body A lambda M n k isprecond).
Abbreviation loop := (cg_loop A lambda M n k isprecond params).
Abbreviation at_ := (state_at A lambda M n k isprecond).
Abbreviation conv := (all_converged k).

Lemma all_converged_iff s :
  conv s = true <-> forall i, i < k -> column_converged s i = true.
Proof.
  unfold all_converged, count_converged.
  rewrite Nat.eqb_eq.
  pose proof (filter_all_length (column_converged s) (seq 0 k)) as Hall.
  rewrite length_seq in Hall. rewrite Hall.
  split; intros H i Hi; apply H.
  - apply in_seq; lia.
  - apply in_seq in Hi; lia.
Qed.

Lemma all_converged_false s i :
  i < k -> column_converged s i = false -> conv s = false.
Proof.
  intros Hi Hc. destruct (conv s) eqn:E; [|reflexivity].
  rewrite all_converged_iff in E. rewrite (E i Hi) in Hc. discriminate.
Qed.

Lemma all_converged_false_ex s :
  conv s = false -> exists i, i < k /\ column_converged s i = false.
Proof.
  intros Hf.
  destruct (forallb (column_converged s) (seq 0 k)) eqn:E.
  - rewrite forallb_forall in E.
    assert (conv s = true) as Hall.
    { apply all_converged_iff. intros i Hi. apply E, in_seq. lia. }
    congruence.
  - apply forallb_false_ex in E. destruct E as (i & Hin & Hi).
    exists i. split; [apply in_seq in Hin; lia | exact Hi].
Qed.

(** What the loop does not touch. *)
Lemma state_at_constants j s :
  cgB (at_ j s) = cgB s /\ nrmb (at_ j s) = nrmb s /\
  cg_tolerance (at_ j s) = cg_tolerance s /\
  symm_sections (at_ j s) = j + symm_sections s.
Proof.
  induction j as [|j (HB & Hn & Ht & Hs)]; simpl; auto.
Qed.

(** Line 156 is undefined in every iteration or in none. *)
Lemma log_guard_None itn convg kk :
  log_guard params itn convg kk = None <-> log_line_defined params = false.
Proof.
  unfold log_guard, log_line_defined.
  destruct (log_lev2 params); [|split; discriminate].
  destruct (res_print params =? 0)%Z; split; (reflexivity || discriminate).
Qed.

Lemma log_guard_Some itn convg kk :
  log_line_defined params = true ->
  exists b, log_guard params itn convg kk = Some b.
Proof.
  intros Hd. destruct (log_guard params itn convg kk) as [b|] eqn:E;
    [eauto|].
  apply log_guard_None in E. congruence.
Qed.

(** One more iteration when the log line is undefined: the body runs and
    the call is stopped at line 156. *)
Lemma cg_loop_trap left itn s :
  log_line_defined params = false ->
  loop (S left) itn s = (None, S itn, body itn s).
Proof.
  intros Hd. cbn [cg_loop].
  destruct (log_guard params itn (count_converged k (body itn s)) k)
    as [b|] eqn:E; [|reflexivity].
  assert (log_guard params itn (count_converged k (body itn s)) k <> None)
    as Hne by congruence.
  rewrite log_guard_None in Hne. congruence.
Qed.

(** One more iteration when the log line is defined. *)
Lemma cg_loop_step left itn s :
  log_line_defined params = true ->
  loop (S left) itn s
  = if conv (body itn s) then (Some Success, S itn, body itn s)
    else loop left (S itn) (body itn s).
Proof.
  intros Hd. cbn [cg_loop].
  destruct (log_guard_Some itn (count_converged k (body itn s)) k Hd)
    as (b & ->).
  reflexivity.
Qed.

(** The outcome of the loop when it is entered at counter [itn], in the
    state produced by [itn] passes through the body. *)
Lemma cg_loop_spec left itn s0 :
  let r := loop left itn (at_ itn s0) in
  let m := iterations_of r in
  final_of r = at_ m s0 /\
  (forall j, itn < j < m -> conv (at_ j s0) = false) /\
  ((ret_of r = Some Success /\ itn < m <= itn + left /\
    conv (at_ m s0) = true /\ log_line_defined params = true)
   \/ (ret_of r = Some IterationLimitExceeded /\ m = itn + left /\
       (itn < m ->
        conv (at_ m s0) = false /\ log_line_defined params = true))
   \/ (ret_of r = None /\ m = S itn /\ 0 < left /\
       log_line_defined params = false)).
Proof.
  unfold iterations_of, ret_of, final_of.
  destruct left as [|left].
  { cbn [cg_loop fst snd]. split; [reflexivity|].
    split; [intros j Hj; lia|].
    right; left. split; [reflexivity|]. split; [lia|]. intros Hlt; lia. }
  destruct (log_line_defined params) eqn:Hd.
  2:{ rewrite (cg_loop_trap left itn (at_ itn s0) Hd). cbn [fst snd].
      split; [reflexivity|]. split; [intros j Hj; lia|].
      right; right. repeat split; lia. }
  assert (forall left itn,
    let r := loop left itn (at_ itn s0) in
    snd r = at_ (snd (fst r)) s0 /\
    (forall j, itn < j < snd (fst r) -> conv (at_ j s0) = false) /\
    ((fst (fst r) = Some Success /\ itn < snd (fst r) <= itn + left /\
      conv (at_ (snd (fst r)) s0) = true)
     \/ (fst (fst r) = Some IterationLimitExceeded /\
         snd (fst r) = itn + left /\
         (itn < snd (fst r) -> conv (at_ (snd (fst r)) s0) = false))))
    as Hgen.
  { clear left itn. intros left.
    induction left as [|left IH]; intros itn.
    - cbn [cg_loop fst snd]. split; [reflexivity|].
      split; [intros j Hj; lia|].
      right. split; [reflexivity|]. split; [lia|]. intros Hlt; lia.
    - cbv zeta. rewrite (cg_loop_step left itn (at_ itn s0) Hd).
      change (body itn (at_ itn s0)) with (at_ (S itn) s0).
      destruct (conv (at_ (S itn) s0)) eqn:E; cbn [fst snd].
      + split; [reflexivity|]. split; [intros j Hj; lia|].
        left. split; [reflexivity|]. split; [lia|exact E].
      + destruct (IH (S itn)) as (Hf & Hno & Hret).
        split; [exact Hf|]. split.
        * intros j Hj. destruct (Nat.eq_dec j (S itn)) as [->|Hne];
            [exact E | apply Hno; lia].
        * destruct Hret as [(Hr & Hm & Hc)|(Hr & Hm & Hc)]; [left|right].
          -- split; [exact Hr|]. split; [lia|exact Hc].
          -- split; [exact Hr|]. split; [lia|]. intros _.
             destruct (Nat.eq_dec left 0) as [->|Hl].
             ++ rewrite Hm, Nat.add_0_r. exact E.
             ++ apply Hc. lia. }
  destruct (Hgen (S left) itn) as (Hf & Hno & Hret).
  split; [exact Hf|]. split; [exact Hno|].
  destruct Hret as [(Hr & Hm & Hc)|(Hr & Hm & Hc)].
  - left. repeat split; (assumption || lia).
  - right; left. split; [exact Hr|]. split; [exact Hm|].
    intros Hlt. split; [exact (Hc Hlt)|reflexivity].
Qed.
End Loop_facts.

Section Run_theorems.
Context {T : Type} {SC : Scalar T}.
Variables (A Y X : Matrix (T:=T)) (lambda : T).
Variables (params : krylov_iter_params_t (T:=T)).
Variable M : outplace_precond_t (T:=T).

Abbreviation k := (Width Y).
Abbreviation L := (Z.to_nat (iter_lim params)).
Abbreviation s0 := (cg_init A Y X lambda params M).
Abbreviation at_ := (state_at A lambda M (Height A) k (negb (is_id M))).
Abbreviation r := (factorizedCG A Y X lambda params M).

Lemma init_nrmb_length : length (nrmb s0) = k.
Proof.
  simpl. now rewrite ColumnNrm2_length, build_compatible_length.
Qed.


Lemma factorizedCG_spec :
  final_of r = at_ (iterations_of r) s0 /\
  (forall j, 0 < j < iterations_of r -> all_converged k (at_ j s0) = false) /\
  ((ret_of r = Some Success /\ 0 < iterations_of r <= L /\
    all_converged k (at_ (iterations_of r) s0) = true /\
    log_line_defined params = true)
   \/ (ret_of r = Some IterationLimitExceeded /\ iterations_of r = L /\
       (0 < iterations_of r ->
        all_converged k (at_ (iterations_of r) s0) = false /\
        log_line_defined params = true))
   \/ (ret_of r = None /\ iterations_of r = 1 /\ 0 < L /\
       log_line_defined params = false)).
Proof.
  exact (cg_loop_spec A lambda M (Height A) k (negb (is_id M)) params L 0 s0).
Qed.




(** C4, as the code has it: the [CG_SYMM_PROFILE] section, which times
    one application of [A^T A + lambda*n I], is entered once for the
    initial residual and once in every iteration, so [1 + iterations]
    times, which is at most [L + 1]; a call in which the log line is
    defined, or whose limit lets no iteration run, returns
    [IterationLimitExceeded] exactly when none of the [L] iterations
    ends with all columns converged. *)
Theorem iteration_budget :
  iterations_of r <= L /\
  symm_sections (final_of r) = 1 + iterations_of r /\
  symm_sections (final_of r) <= L + 1 /\
  (ret_of r = Some IterationLimitExceeded -> iterations_of r = L) /\
  (log_line_defined params = true \/ L = 0 ->
   (ret_of r = Some IterationLimitExceeded <->
      forall j, 0 < j <= L -> all_converged k (at_ j s0) = false)).
Proof.
  destruct factorizedCG_spec as (Hfin & Hno & Hret).
  assert (symm_sections (final_of r) = 1 + iterations_of r) as Hs.
  { rewrite Hfin.
    destruct (state_at_constants A lambda M (Height A) k (negb (is_id M))
                (iterations_of r) s0) as (_ & _ & _ & ->).
    simpl. lia. }
  destruct Hret as [(Hr & Hm & Hc & _)|[(Hr & Hm & Hc)|(Hr & Hm & HL & Hd)]].
  - split; [lia|]. split; [exact Hs|]. split; [lia|].
    rewrite Hr. split; [discriminate|]. intros _.
    split; [discriminate|].
    intros Hall. rewrite (Hall (iterations_of r)) in Hc by lia.
    discriminate.
  - split; [lia|]. split; [exact Hs|]. split; [lia|].
    split; [intros _; exact Hm|]. intros _.
    split; [|intros _; exact Hr].
    intros _ j Hj. destruct (Nat.eq_dec j (iterations_of r)) as [->|Hne].
    + apply Hc; lia.
    + apply Hno; lia.
  - split; [lia|]. split; [exact Hs|]. split; [lia|].
    rewrite Hr. split; [discriminate|].
    intros [Hd'|HL0]; [congruence|lia].
Qed.

(** C5, as the code has it: the two codes are distinct, and a call in
    which the log line is defined, or whose limit lets no iteration run,
    returns one of them: [Success], after at least one iteration whose
    end state passes the test in every column, or
    [IterationLimitExceeded], after exactly [L] iterations none of
    which ended converged.  A call that enters the loop with the log
    line undefined returns no code: it is stopped in its first
    iteration, at line 156, after [X] has been updated once. *)
Theorem status_codes :
  Success <> IterationLimitExceeded /\
  (log_line_defined params = true \/ L = 0 ->
   (ret_of r = Some Success /\ 0 < iterations_of r <= L /\
    forall i, i < k -> column_converged (final_of r) i = true)
   \/
   (ret_of r = Some IterationLimitExceeded /\ iterations_of r = L /\
    forall j, 0 < j <= L ->
      exists i, i < k /\ column_converged (at_ j s0) i = false)) /\
  (log_line_defined params = false -> 0 < L ->
   ret_of r = None /\ iterations_of r = 1 /\
   final_of r = cg_body A lambda M (Height A) k (negb (is_id M)) 0 s0).
Proof.
  destruct factorizedCG_spec as (Hfin & Hno & Hret).
  split; [discriminate|]. split.
  - intros Hok.
    destruct Hret as [(Hr & Hm & Hc & _)|[(Hr & Hm & Hc)|(_ & _ & HL & Hd)]];
      [left|right|destruct Hok; [congruence|lia]].
    + split; [exact Hr|]. split; [exact Hm|].
      rewrite Hfin. now apply all_converged_iff.
    + split; [exact Hr|]. split; [exact Hm|]. intros j Hj.
      apply all_converged_false_ex.
      destruct (Nat.eq_dec j (iterations_of r)) as [->|Hne];
        [apply Hc | apply Hno]; lia.
  - intros Hd HL.
    destruct Hret as [(_ & _ & _ & Hd')|[(_ & Hm & Hc)|(Hr & Hm & _)]];
      [congruence| |].
    + assert (0 < iterations_of r) as Hpos by lia.
      destruct (Hc Hpos) as (_ & Hd'). congruence.
    + split; [exact Hr|]. split; [exact Hm|]. rewrite Hfin, Hm. reflexivity.
Qed.
End Run_theorems.

Section Momentum.
Context {T : Type} {SC : Scalar T}.
Variables (A : Matrix (T:=T)) (lambda : T) (M : outplace_precond_t (T:=T)).
Variables (n k : nat) (isprecond : bool).

Abbreviation body := (cg_body A lambda M n k isprecond).
Abbreviation at_ := (state_at A lambda M n k isprecond).

(** C7: in the first iteration [beta] is set to zero in every column; at
    the end of every iteration [rho0] is the [rho] of that iteration, and
    in every later iteration [beta[i]] is this iteration's [rho[i]]
    divided by [rho0[i]], which is the previous iteration's [rho[i]]. *)
Theorem momentum_coefficient s i j :
  i < k ->
  let at_ := state_at A lambda M n k isprecond in
  beta (at_ 1 s) = map (fun _ => s_zero) (beta s) /\
  nth i (beta (at_ 1 s)) s_zero = s_zero /\
  rho0 (at_ (S j) s) = rho (at_ (S j) s) /\
  nth i (beta (at_ (S (S j)) s)) s_zero
  = s_div (nth i (rho (at_ (S (S j)) s)) s_zero)
          (nth i (rho0 (at_ (S j) s)) s_zero) /\
  nth i (beta (at_ (S (S j)) s)) s_zero
  = s_div (nth i (rho (at_ (S (S j)) s)) s_zero)
          (nth i (rho (at_ (S j) s)) s_zero).
Proof.
  intros Hi at_'. subst at_'.
  assert (rho0 (at_ (S j) s) = rho (at_ (S j) s)) as H0
    by apply body_rho0.
  split; [reflexivity|]. split.
  - change (at_ 1 s) with (body 0 s). rewrite body_beta_first.
    apply Zero_nth.
  - split; [exact H0|].
    change (at_ (S (S j)) s) with (body (S j) (at_ (S j) s)).
    rewrite <- H0. split; apply body_beta_later; exact Hi.
Qed.
End Momentum.


(** ** Runs in binary64, the tolerance clamp, the divisions *)

Example diag12_converges :
  ret_of (diag12_run 0x1p-20%float 5) = Some Success /\
  iterations_of (diag12_run 0x1p-20%float 5) = 2 /\
  symm_sections (final_of (diag12_run 0x1p-20%float 5)) = 3 /\
  cgX (final_of (diag12_run 0x1p-20%float 5))
  = [[1; 0x1.fffffffffffffp-2]]%float.
Proof. vm_compute. repeat split. Qed.

(** The guard of the per-iteration log line is defined whenever
    per-iteration logging is off or the print interval is not zero; with
    per-iteration logging on and a print interval of zero it is
    undefined in every iteration. *)
Lemma log_guard_undefined {T : Type} {SC : Scalar T}
    (params : krylov_iter_params_t (T:=T)) (itn convg k : nat) :
  (log_guard params itn convg k = None <->
   am_i_printing params = true /\ (2 <= log_level params)%Z /\
   res_print params = 0%Z) /\
  (log_lev2 params = false -> log_guard params itn convg k = Some false).
Proof.
  unfold log_guard, log_lev2. split.
  - destruct (am_i_printing params); cbn [andb].
    + destruct (Z.leb_spec 2 (log_level params)) as [Hl|Hl].
      * destruct (Z.eqb_spec (res_print params) 0) as [Hr|Hr].
        -- split; [intros _; repeat split; assumption | reflexivity].
        -- split; [discriminate | intros (_ & _ & H0); contradiction].
      * split; [discriminate | intros (_ & H2 & _); lia].
    + split; [discriminate | intros (H & _); discriminate].
  - intros H. now rewrite H.
Qed.

Example log_guard_zero_interval :
  log_guard {| tolerance := 0x1p-20%float; iter_lim := 1;
               am_i_printing := true; log_level := 2; res_print := 0 |}
    0 0 1 = None.
Proof. reflexivity. Qed.

(** With per-iteration logging on and a print interval of zero the run
    that converges in two iterations when it is quiet ([diag12_converges])
    is stopped in its first iteration and returns nothing. *)
Example log_trap_run :
  let r := factorizedCG diag12_A diag12_Y diag12_X 0%float
             {| tolerance := 0x1p-20%float; iter_lim := 5;
                am_i_printing := true; log_level := 2; res_print := 0 |}
             outplace_id_precond_t in
  ret_of r = None /\ iterations_of r = 1.
Proof. vm_compute. split; reflexivity. Qed.

(** C4 as stated fails: with [iteration_limit = 1] the operator is
    applied twice, once for the initial residual and once in the single
    iteration. *)
Lemma iteration_budget_counterexample :
  ret_of (diag12_run 0x1p-20%float 1) = Some IterationLimitExceeded /\
  symm_sections (final_of (diag12_run 0x1p-20%float 1)) = 2 /\
  ~ (symm_sections (final_of (diag12_run 0x1p-20%float 1)) <= Z.to_nat 1).
Proof.
  assert (symm_sections (final_of (diag12_run 0x1p-20%float 1)) = 2) as H
    by (vm_compute; reflexivity).
  split; [vm_compute; reflexivity|]. split; [exact H|].
  rewrite H. simpl. lia.
Qed.

(** C6 as stated fails: the largest [double] below [1] is neither below
    [32 eps] nor at least [1], so it is kept, and it lies above
    [1 - 32 eps]. *)
Lemma tolerance_clamp_counterexample :
  clamp_tolerance 0x1.fffffffffffffp-1%float = 0x1.fffffffffffffp-1%float /\
  in_band (clamp_tolerance 0x1.fffffffffffffp-1%float) = false.
Proof. split; vm_compute; reflexivity. Qed.

Lemma eps32_exact : (eps32 (T:=R) = 32 * / 2 ^ 52)%R.
Proof. reflexivity. Qed.

Lemma eps32_exact_bounds : (0 < eps32 (T:=R) < 1 / 2)%R.
Proof. rewrite eps32_exact. simpl. lra. Qed.

Lemma clamp_tolerance_exact (tol : R) :
  clamp_tolerance tol
  = if Rlt_dec tol eps32 then eps32
    else if Rge_dec tol 1 then (1 - eps32)%R else tol.
Proof.
  unfold clamp_tolerance. cbn [s_lt s_ge s_sub s_one reals].
  destruct (Rlt_dec tol eps32); [reflexivity|].
  destruct (Rge_dec tol 1); reflexivity.
Qed.

Lemma clamp_exact_band :
  (forall tol : R, (eps32 <= clamp_tolerance tol < 1)%R) /\
  clamp_tolerance 2%R = (1 - eps32)%R /\
  clamp_tolerance 0%R = eps32 (T:=R).
Proof.
  pose proof eps32_exact_bounds as He.
  split.
  { intros tol. rewrite clamp_tolerance_exact.
    destruct (Rlt_dec tol eps32); [lra|].
    destruct (Rge_dec tol 1); lra. }
  split; rewrite clamp_tolerance_exact.
  - destruct (Rlt_dec 2 eps32); [lra|]. destruct (Rge_dec 2 1); lra.
  - destruct (Rlt_dec 0 eps32); [reflexivity|lra].
Qed.

(** Comparisons of [double]: apart from NaN the order is total. *)
Lemma SFcompare_antisym f1 f2 :
  SFcompare f2 f1 = option_map CompOpp (SFcompare f1 f2).
Proof.
  destruct f1 as [s1|s1| |s1 m1 e1], f2 as [s2|s2| |s2 m2 e2];
    try (destruct s1; try destruct s2; reflexivity);
    try (destruct s2; reflexivity); try reflexivity.
  cbn [SFcompare option_map]. f_equal.
  rewrite (Z.compare_antisym e1 e2).
  destruct s1, s2; try reflexivity;
    destruct (e1 ?= e2)%Z; cbn [CompOpp]; try reflexivity.
  - f_equal. exact (Pos.compare_antisym m1 m2).
  - exact (Pos.compare_antisym m1 m2).
Qed.

Lemma SFcompare_defined f1 f2 :
  f1 <> S754_nan -> f2 <> S754_nan -> SFcompare f1 f2 <> None.
Proof.
  destruct f1 as [s1|s1| |s1 m1 e1], f2 as [s2|s2| |s2 m2 e2];
    try discriminate; congruence.
Qed.

Lemma nan_is (x : float) : Prim2SF x = S754_nan -> x = nan.
Proof. intros H. rewrite <- (SF2Prim_Prim2SF x), H. reflexivity. Qed.

Lemma ltb_false_leb (x y : float) :
  x <> nan -> y <> nan -> (ltb x y = false <-> leb y x = true).
Proof.
  intros Hx Hy. rewrite ltb_spec, leb_spec. unfold SFltb, SFleb.
  rewrite (SFcompare_antisym (Prim2SF x) (Prim2SF y)).
  assert (SFcompare (Prim2SF x) (Prim2SF y) <> None) as Hd.
  { apply SFcompare_defined; intros H; apply nan_is in H; contradiction. }
  destruct (SFcompare (Prim2SF x) (Prim2SF y)) as [[| |]|];
    cbn [option_map CompOpp]; split; try reflexivity; try discriminate;
    contradiction.
Qed.

Lemma leb_false_ltb (x y : float) :
  x <> nan -> y <> nan -> (leb y x = false <-> ltb x y = true).
Proof.
  intros Hx Hy. rewrite ltb_spec, leb_spec. unfold SFltb, SFleb.
  rewrite (SFcompare_antisym (Prim2SF x) (Prim2SF y)).
  assert (SFcompare (Prim2SF x) (Prim2SF y) <> None) as Hd.
  { apply SFcompare_defined; intros H; apply nan_is in H; contradiction. }
  destruct (SFcompare (Prim2SF x) (Prim2SF y)) as [[| |]|];
    cbn [option_map CompOpp]; split; try reflexivity; try discriminate;
    contradiction.
Qed.

(** Lines 75-76 on [double], case by case. *)
Lemma clamp_binary64 (tol : float) :
  clamp_tolerance tol
  = if ltb tol eps32 then eps32
    else if leb 1 tol then s_sub s_one eps32 else tol.
Proof. reflexivity. Qed.

(** C6, as the code has it: a tolerance below [32 eps] becomes [32 eps],
    one that is at least [1] becomes [1 - 32 eps], and any other number
    is kept; so the effective tolerance lies in [[32 eps, 1)], over the
    reals and, for every tolerance that is a number, over [double] with
    the comparisons of [double].  [2.0] becomes [1 - 32 eps] and [0]
    becomes [32 eps]; no value is rejected. *)
Theorem tolerance_clamp :
  (forall tol : R,
     (eps32 <= clamp_tolerance tol < 1)%R /\
     ((tol < eps32)%R -> clamp_tolerance tol = eps32) /\
     ((1 <= tol)%R -> clamp_tolerance tol = (1 - eps32)%R) /\
     ((eps32 <= tol < 1)%R -> clamp_tolerance tol = tol)) /\
  (forall tol : float, tol <> nan ->
     leb eps32 (clamp_tolerance tol) = true /\
     ltb (clamp_tolerance tol) 1 = true /\
     (ltb tol eps32 = true -> clamp_tolerance tol = eps32) /\
     (ltb tol eps32 = false -> leb 1 tol = true ->
      clamp_tolerance tol = s_sub s_one eps32) /\
     (leb eps32 tol = true -> ltb tol 1 = true ->
      clamp_tolerance tol = tol)) /\
  clamp_tolerance 2%R = (1 - eps32)%R /\
  clamp_tolerance 0%R = eps32 (T:=R) /\
  clamp_tolerance 2%float = s_sub s_one eps32 /\
  clamp_tolerance 0%float = eps32 (T:=float) /\
  in_band (clamp_tolerance 2%float) = true /\
  in_band (clamp_tolerance 0%float) = true.
Proof.
  destruct clamp_exact_band as (Hband & H2 & H0).
  pose proof eps32_exact_bounds as He.
  split.
  { intros tol. split; [apply Hband|]. rewrite clamp_tolerance_exact.
    destruct (Rlt_dec tol eps32) as [Hlt|Hlt].
    - repeat split; intros; (reflexivity || lra).
    - destruct (Rge_dec tol 1) as [Hge|Hge];
        repeat split; intros; (reflexivity || lra). }
  split.
  { intros tol Hnan.
    assert (eps32 (T:=float) <> nan) as Hen by (vm_compute; discriminate).
    assert (1%float <> nan) as H1n by (vm_compute; discriminate).
    rewrite clamp_binary64.
    destruct (ltb tol eps32) eqn:Hlt.
    { split; [vm_compute; reflexivity|]. split; [vm_compute; reflexivity|].
      split; [reflexivity|]. split; [discriminate|].
      intros Hle. apply (ltb_false_leb Hnan Hen) in Hle. congruence. }
    destruct (leb 1 tol) eqn:Hge.
    { split; [vm_compute; reflexivity|]. split; [vm_compute; reflexivity|].
      split; [discriminate|]. split; [reflexivity|].
      intros _ Hl1. apply (leb_false_ltb Hnan H1n) in Hl1. congruence. }
    split; [now apply (ltb_false_leb Hnan Hen)|].
    split; [now apply (leb_false_ltb Hnan H1n)|].
    split; [discriminate|]. split; [discriminate|reflexivity]. }
  split; [exact H2|]. split; [exact H0|].
  repeat split; vm_compute; reflexivity.
Qed.

(** C8: no division of the loop body is guarded: whatever the state,
    [alpha[i]] is [rho[i] / rhotmp[i]] and, after the first iteration,
    [beta[i]] is [rho[i] / rho0[i]].  Zero denominators are reached: in
    the binary64 run on a zero right-hand side the loop executes two
    iterations; in the first, [rhotmp[0]] is zero and [alpha[0]] is
    computed as [rho[0] / 0], which is not a number; in the second,
    [rho0[0]] is zero and [beta[0]] is computed as [rho[0] / 0]. *)
Theorem unguarded_division :
  (forall A lambda M n k isprecond itn (s : cg_state (T:=float)) i,
     i < k ->
     nth i (alpha (cg_body A lambda M n k isprecond itn s)) s_zero
     = s_div (nth i (rho (cg_body A lambda M n k isprecond itn s)) s_zero)
             (nth i (rhotmp (cg_body A lambda M n k isprecond itn s)) s_zero)
     /\
     nth i (beta (cg_body A lambda M n k isprecond (S itn) s)) s_zero
     = s_div (nth i (rho (cg_body A lambda M n k isprecond (S itn) s)) s_zero)
             (nth i (rho0 s) s_zero)) /\
  iterations_of (zero_rhs_run 0x1p-20%float 2) = 2 /\
  final_of (zero_rhs_run 0x1p-20%float 2) = zero_rhs_at 0x1p-20%float 2 2 /\
  nth 0 (rhotmp (zero_rhs_at 0x1p-20%float 2 1)) s_zero = s_zero /\
  nth 0 (alpha (zero_rhs_at 0x1p-20%float 2 1)) s_zero
  = s_div (nth 0 (rho (zero_rhs_at 0x1p-20%float 2 1)) s_zero) s_zero /\
  nth 0 (alpha (zero_rhs_at 0x1p-20%float 2 1)) s_zero = nan /\
  nth 0 (rho0 (zero_rhs_at 0x1p-20%float 2 1)) s_zero = s_zero /\
  nth 0 (beta (zero_rhs_at 0x1p-20%float 2 2)) s_zero
  = s_div (nth 0 (rho (zero_rhs_at 0x1p-20%float 2 2)) s_zero) s_zero /\
  nth 0 (beta (zero_rhs_at 0x1p-20%float 2 2)) s_zero = nan.
Proof.
  assert (forall A lambda M n k isprecond itn (s : cg_state (T:=float)) i,
     i < k ->
     nth i (alpha (cg_body A lambda M n k isprecond itn s)) s_zero
     = s_div (nth i (rho (cg_body A lambda M n k isprecond itn s)) s_zero)
             (nth i (rhotmp (cg_body A lambda M n k isprecond itn s)) s_zero)
     /\
     nth i (beta (cg_body A lambda M n k isprecond (S itn) s)) s_zero
     = s_div (nth i (rho (cg_body A lambda M n k isprecond (S itn) s)) s_zero)
             (nth i (rho0 s) s_zero)) as Hdiv.
  { intros A lambda M n k isprecond itn s i Hi.
    split; [now apply body_alpha | now apply body_beta_later]. }
  assert (nth 0 (rhotmp (zero_rhs_at 0x1p-20%float 2 1)) s_zero = s_zero)
    as Hrt by (vm_compute; reflexivity).
  assert (nth 0 (rho0 (zero_rhs_at 0x1p-20%float 2 1)) s_zero = s_zero)
    as Hr0 by (vm_compute; reflexivity).
  split; [exact Hdiv|].
  split; [vm_compute; reflexivity|].
  split; [vm_compute; reflexivity|].
  split; [exact Hrt|].
  split.
  { rewrite <- Hrt at 2.
    exact (proj1 (Hdiv _ _ _ _ _ _ 0 (zero_rhs_init 0x1p-20%float 2) 0
                    (Nat.lt_0_succ 0))). }
  split; [vm_compute; reflexivity|].
  split; [exact Hr0|].
  split; [|vm_compute; reflexivity].
  rewrite <- Hr0 at 2.
  exact (proj2 (Hdiv _ _ _ _ _ _ 0 (zero_rhs_at 0x1p-20%float 2 1) 0
                  (Nat.lt_0_succ 0))).
Qed.

(** ** The shapes are invariant *)

Section Shape_facts.
Context {T : Type} {SC : Scalar T}.
Variables (A : Matrix (T:=T)) (lambda : T) (M : outplace_precond_t (T:=T)).
Variables (n d k : nat).

Abbreviation isprecond := (negb (is_id M)).
Abbreviation body := (cg_body A lambda M (Height A) k isprecond).
Abbreviation at_ := (state_at A lambda M (Height A) k isprecond).

Lemma precondition_wf s :
  wf_state M n d k s ->
  fst (precondition M isprecond s) = cgR s /\
  Zval (cgR s) (snd (precondition M isprecond s)) = Z_of M s.
Proof.
  intros (_ & _ & _ & _ & _ & HZ & _). unfold precondition, Z_of.
  destruct (cgZ s) as [|z].
  - rewrite HZ. simpl. auto.
  - destruct HZ as (-> & _). simpl. auto.
Qed.

Lemma body_wf itn s :
  precond_shaped M d k -> wf_state M n d k s ->
  wf_state M n d k (body itn s).
Proof.
  intros HM Hs.
  pose proof Hs as (HX & HP & HR & HQ & HH & HZ & Hr & Hrho & Hrt).
  destruct (precondition_wf Hs) as (HR2 & _).
  unfold wf_state, cg_body.
  cbn [cgX cgP cgR cgQ hermIntermed cgZ ressqr rho rhotmp].
  split; [now apply shaped_AxpyCols|].
  split; [now apply shaped_Axpy, shaped_DiagonalScale|].
  split; [apply shaped_AxpyCols; now rewrite HR2|].
  split; [now apply shaped_Axpy, shaped_Gemm|].
  split; [now apply shaped_Gemm|].
  split.
  { unfold precondition. destruct (cgZ s) as [|z].
    - rewrite HZ. simpl. reflexivity.
    - destruct HZ as (Hp & Hz). rewrite Hp. simpl. split; [reflexivity|].
      now apply HM. }
  split; [now rewrite ColumnDot_length|].
  split; [|now rewrite ColumnDot_length].
  destruct isprecond; [now rewrite ColumnDot_length | exact Hr].
Qed.

Lemma state_at_wf j s :
  precond_shaped M d k -> wf_state M n d k s -> wf_state M n d k (at_ j s).
Proof.
  intros HM Hs. induction j as [|j IH]; [exact Hs|].
  change (at_ (S j) s) with (body j (at_ j s)). now apply body_wf.
Qed.

Lemma init_wf Y X params :
  shaped n k Y -> shaped d k X ->
  wf_state M n d k (cg_init A Y X lambda params M).
Proof.
  intros HY HX. assert (Width Y = k) as Hk by (destruct HY; assumption).
  unfold wf_state, cg_init.
  cbn [cgX cgP cgR cgQ hermIntermed cgZ ressqr rho rhotmp].
  split; [exact HX|]. split; [exact HX|].
  split; [now apply shaped_Axpy, shaped_Gemm, shaped_Gemm|].
  split; [now apply shaped_Gemm|].
  split; [now apply shaped_Gemm|].
  split; [destruct (negb (is_id M)); auto|].
  rewrite ColumnDot_length, ColumnNrm2_length, build_compatible_length.
  auto.
Qed.
End Shape_facts.

(** ** Exact arithmetic *)

Section Exact_facts.
Local Open Scope R_scope.

Lemma rsum_ext m f g :
  (forall l, (l < m)%nat -> f l = g l) -> rsum m f = rsum m g.
Proof.
  induction m as [|m IH]; intros H; simpl; [reflexivity|].
  rewrite IH, H by auto. reflexivity.
Qed.

Lemma rsum_shift m f : rsum (S m) f = f O + rsum m (fun l => f (S l)).
Proof.
  induction m as [|m IH]; [simpl; ring|].
  change (rsum (S (S m)) f) with (rsum (S m) f + f (S m)).
  rewrite IH. simpl. ring.
Qed.

Lemma rsum_zero m f : (forall l, (l < m)%nat -> f l = 0) -> rsum m f = 0.
Proof.
  induction m as [|m IH]; intros H; simpl; [reflexivity|].
  rewrite IH, H by auto. ring.
Qed.

Lemma dot_from_acc (acc : R) u v : dot_from acc u v = acc + dot u v.
Proof.
  unfold dot. revert acc v; induction u as [|a u IH]; intros acc [|b v];
    simpl; try ring.
  rewrite IH, (IH (0 + a * b)). ring.
Qed.

Lemma dot_rsum m (u v : Vector (T:=R)) :
  length u = m -> length v = m ->
  dot u v = rsum m (fun l => nth l u 0 * nth l v 0).
Proof.
  revert m v; induction u as [|a u IH]; intros m [|b v] Hu Hv;
    simpl in Hu, Hv; subst m; try discriminate; [reflexivity|].
  rewrite rsum_shift. simpl nth.
  rewrite <- (IH (length u) v) by (auto; congruence).
  unfold dot at 1. simpl. rewrite dot_from_acc. ring.
Qed.

Lemma row_length (A : Matrix (T:=R)) l : length (row A l) = length A.
Proof. apply length_map. Qed.

Lemma row_nth (A : Matrix (T:=R)) l m : nth m (row A l) 0 = entry A l m.
Proof.
  unfold row, entry.
  rewrite <- (map_nth (fun c => nth l c s_zero) A [] m).
  destruct l; reflexivity.
Qed.

(** The entries of [A V] and of [A^T H] as sums. *)
Lemma dot_row_col n d k (A V : Matrix (T:=R)) l j :
  shaped n d A -> shaped d k V -> (j < k)%nat ->
  dot (op_row NORMAL A l) (op_col NORMAL V j)
  = rsum d (fun m => entry A l m * entry V m j).
Proof.
  intros HA HV Hj. simpl.
  rewrite (dot_rsum (m:=d)).
  - apply rsum_ext. intros m _. now rewrite row_nth.
  - rewrite row_length. now destruct HA.
  - exact (shaped_col HV Hj).
Qed.

Lemma dot_col_col n d k (A H : Matrix (T:=R)) i j :
  shaped n d A -> shaped n k H -> (i < d)%nat -> (j < k)%nat ->
  dot (op_row TRANSPOSE A i) (op_col NORMAL H j)
  = rsum n (fun l => entry A l i * entry H l j).
Proof.
  intros HA HH Hi Hj. simpl.
  apply dot_rsum; [exact (shaped_col HA Hi) | exact (shaped_col HH Hj)].
Qed.

Lemma Height_shaped n d (A : Matrix (T:=R)) :
  shaped n d A -> (0 < d)%nat -> Height A = n.
Proof.
  intros HA Hd. unfold Height.
  rewrite <- (shaped_col HA Hd). now destruct A.
Qed.

Lemma entry_Gemm_NN n d k (A V H : Matrix (T:=R)) l j :
  shaped n d A -> shaped d k V -> shaped n k H ->
  (l < n)%nat -> (j < k)%nat ->
  entry (Gemm NORMAL NORMAL s_one A V s_zero H) l j
  = rsum d (fun m => entry A l m * entry V m j).
Proof.
  intros HA HV HH Hl Hj. rewrite (entry_Gemm _ _ _ _ _ _ HH Hl Hj).
  rewrite (dot_row_col _ HA HV Hj). cbn [s_eq s_zero s_one s_mul reals].
  destruct (Req_dec_T 0 0) as [_|Hne]; [ring|contradiction].
Qed.

Lemma entry_Gemm_gram n d k al be (A V H C : Matrix (T:=R)) i j :
  shaped n d A -> shaped d k V -> shaped n k H -> shaped d k C ->
  (i < d)%nat -> (j < k)%nat ->
  entry (Gemm TRANSPOSE NORMAL al A
           (Gemm NORMAL NORMAL s_one A V s_zero H) be C) i j
  = if Req_dec_T be 0 then al * gram A n d V i j
    else al * gram A n d V i j + be * entry C i j.
Proof.
  intros HA HV HH HC Hi Hj. rewrite (entry_Gemm _ _ _ _ _ _ HC Hi Hj).
  rewrite (dot_col_col HA (shaped_Gemm NORMAL NORMAL s_one A V s_zero HH)
             Hi Hj).
  assert (rsum n (fun l => entry A l i *
            entry (Gemm NORMAL NORMAL s_one A V s_zero H) l j)
          = gram A n d V i j) as ->.
  { apply rsum_ext. intros l Hl.
    now rewrite (entry_Gemm_NN HA HV HH Hl Hj). }
  cbn [s_eq s_zero s_mul s_add reals].
  destruct (Req_dec_T be 0); reflexivity.
Qed.

(** Lines 129-133 compute the operator of the specification. *)
Lemma entry_normal_op n d k lambda (A V H C : Matrix (T:=R)) i j :
  shaped n d A -> shaped d k V -> shaped n k H -> shaped d k C ->
  (i < d)%nat -> (j < k)%nat ->
  entry (Axpy (s_mul lambda (s_of_index (Z.of_nat (Height A)))) V
           (Gemm TRANSPOSE NORMAL s_one A
              (Gemm NORMAL NORMAL s_one A V s_zero H) s_zero C)) i j
  = normal_op A lambda n d V i j.
Proof.
  intros HA HV HH HC Hi Hj.
  rewrite (entry_Axpy _ _
             (shaped_Gemm TRANSPOSE NORMAL s_one A _ s_zero HC) Hi Hj).
  rewrite (entry_Gemm_gram _ _ HA HV HH HC Hi Hj).
  rewrite (Height_shaped HA) by lia.
  cbn [s_zero s_one s_mul s_add s_of_index reals].
  rewrite <- INR_IZR_INZ. unfold normal_op, gram.
  destruct (Req_dec_T 0 0) as [_|Hne]; [ring|contradiction].
Qed.
End Exact_facts.

Section Exact_solver.
Local Open Scope R_scope.
Variables (A Y X : Matrix (T:=R)) (lambda : R).
Variables (params : krylov_iter_params_t (T:=R)).
Variable M : outplace_precond_t (T:=R).
Variables (n d k : nat).

Abbreviation isprecond := (negb (is_id M)).
Abbreviation body := (cg_body A lambda M (Height A) k isprecond).
Abbreviation at_ := (state_at A lambda M (Height A) k isprecond).
Abbreviation s0 := (cg_init A Y X lambda params M).

Hypothesis HA : shaped n d A.
Hypothesis HY : shaped n k Y.
Hypothesis HX : shaped d k X.

Lemma Width_Y : Width Y = k.
Proof. now destruct HY. Qed.

Lemma init_spec_initial : spec_initial A Y X lambda n d k s0.
Proof.
  intros i j Hi Hj.
  assert (entry (cgB s0) i j = AtY A Y n i j) as HB.
  { cbn [cgB cg_init]. rewrite (entry_Gemm _ _ _ _ _ _ HX Hi Hj).
    rewrite (dot_col_col HA HY Hi Hj). cbn [s_eq s_zero s_one s_mul reals].
    unfold AtY. destruct (Req_dec_T 0 0) as [_|Hne]; [ring|contradiction]. }
  split; [exact HB|].
  pose proof (shaped_Gemm TRANSPOSE NORMAL s_one A Y s_zero HX) as HB1.
  cbn [cgR cgB cg_init] in *.
  rewrite (entry_Axpy _ _
    (shaped_Gemm TRANSPOSE NORMAL (s_neg s_one) A _ s_one HB1) Hi Hj).
  rewrite (entry_Gemm_gram _ _ HA HX HY HB1 Hi Hj).
  rewrite (Height_shaped HA) by lia.
  cbn [s_zero s_one s_mul s_add s_neg s_of_index reals].
  rewrite <- INR_IZR_INZ. unfold normal_op, gram.
  destruct (Req_dec_T 1 0) as [Hne|_]; [lra|ring].
Qed.

Hypothesis HM : precond_shaped M d k.

Lemma body_spec_iteration itn s :
  wf_state M n d k s -> spec_iteration A lambda n d k (Z_of M s) s (body itn s).
Proof.
  intros Hs i c Hi Hc.
  pose proof Hs as (HsX & HsP & HsR & HsQ & HsH & HsZ & Hr & Hrho & Hrt).
  destruct (precondition_wf Hs) as (HR2 & HZ2).
  pose proof (body_wf A lambda itn HM Hs)
    as (HX' & HP' & HR' & HQ' & HH' & _).
  split.
  { rewrite body_P, HR2, HZ2.
    rewrite (entry_Axpy _ _ (shaped_DiagonalScale RIGHT NORMAL _ HsP) Hi Hc).
    rewrite (entry_DiagonalScale_right _ _ HsP Hi Hc).
    cbn [s_zero s_one s_mul s_add reals]. ring. }
  split.
  { rewrite body_Q. exact (entry_normal_op lambda HA HP' HsH HsQ Hi Hc). }
  split.
  { rewrite body_rhotmp.
    pose proof (ColumnDot_nth (cgP (body itn s)) (cgQ (body itn s))
                  (rhotmp s) (j:=c)) as Hcd.
    cbn [s_zero reals] in Hcd. rewrite Hcd by lia.
    apply dot_rsum; [exact (shaped_col HP' Hc) | exact (shaped_col HQ' Hc)]. }
  split; [exact (body_alpha A lambda M (Height A) isprecond itn s Hc)|].
  split.
  { rewrite body_X at 1. rewrite (entry_AxpyCols _ _ HsX Hi Hc).
    cbn [s_zero s_mul s_add reals]. ring. }
  rewrite body_R at 1. rewrite HR2, (entry_AxpyCols _ _ HsR Hi Hc).
  rewrite body_malpha.
  assert (nth c (map s_neg (alpha (body itn s))) s_zero
          = - nth c (alpha (body itn s)) 0) as ->.
  { rewrite (nth_indep _ s_zero (s_neg 0))
      by (rewrite length_map, body_alpha_length; exact Hc).
    now rewrite map_nth. }
  cbn [s_zero s_mul s_add reals]. ring.
Qed.

Abbreviation r := (factorizedCG A Y X lambda params M).

Lemma at_wf j : wf_state M n d k (at_ j s0).
Proof. apply state_at_wf; [exact HM|]. now apply init_wf. Qed.

Lemma exact_run_states : final_of r = at_ (iterations_of r) s0.
Proof.
  unfold factorizedCG. rewrite Width_Y.
  exact (proj1 (cg_loop_spec A lambda M (Height A) k isprecond params
                  (Z.to_nat (iter_lim params)) 0 s0)).
Qed.

End Exact_solver.

Section Exact_theorems.
Local Open Scope R_scope.
Variables (A Y X : Matrix (T:=R)) (lambda : R).
Variables (params : krylov_iter_params_t (T:=R)).
Variable M : outplace_precond_t (T:=R).
Variables (n d k : nat).

Abbreviation at_ := (state_at A lambda M (Height A) k (negb (is_id M))).
Abbreviation s0 := (cg_init A Y X lambda params M).
Abbreviation r := (factorizedCG A Y X lambda params M).

(** C1: in exact arithmetic, for blocks of matching shapes, every pass
    through the loop body is one step of the recurrence of the
    specification: [P = P diag(beta) + Z], then
    [Q = (A^T A + lambda*n I) P], then [rhotmp[c] = P_c . Q_c] and
    [alpha[c] = rho[c] / rhotmp[c]], then [X = X + P diag(alpha)] and
    [R = R - Q diag(alpha)], each from the values just computed; the
    blocks keep their shapes, and the states the call goes through are
    these. *)
Theorem iteration_recurrence :
  shaped n d A -> shaped n k Y -> shaped d k X -> precond_shaped M d k ->
  (forall j, spec_iteration A lambda n d k (Z_of M (at_ j s0))
               (at_ j s0) (at_ (S j) s0)) /\
  (forall j, wf_state M n d k (at_ j s0)) /\
  final_of r = at_ (iterations_of r) s0.
Proof.
  intros HA HY HX HM.
  pose proof (at_wf A lambda params HY HX HM) as Hwf.
  split; [|split; [exact Hwf|]].
  2: exact (exact_run_states A X lambda params M HY).
  intros j.
  exact (body_spec_iteration lambda HA HM j (Hwf j)).
Qed.

(** C2: in exact arithmetic, for blocks of matching shapes, the state
    before the loop has [B = A^T Y] and [R = B - (A^T A + lambda*n I) X]
    for the [X] passed in and [n] the height of [A], one operator
    application having been timed; no iteration changes [B], and each
    changes [R] only by subtracting [Q diag(alpha)]. *)
Theorem initial_residual :
  shaped n d A -> shaped n k Y -> shaped d k X -> precond_shaped M d k ->
  spec_initial A Y X lambda n d k s0 /\
  ((0 < d)%nat -> Height A = n) /\
  shaped d k (cgB s0) /\ shaped d k (cgR s0) /\
  symm_sections s0 = 1%nat /\
  (forall j, cgB (at_ j s0) = cgB s0) /\
  (forall j i c, (i < d)%nat -> (c < k)%nat ->
     entry (cgR (at_ (S j) s0)) i c
     = entry (cgR (at_ j s0)) i c
       - entry (cgQ (at_ (S j) s0)) i c * nth c (alpha (at_ (S j) s0)) 0) /\
  final_of r = at_ (iterations_of r) s0.
Proof.
  intros HA HY HX HM.
  pose proof (at_wf A lambda params HY HX HM) as Hwf.
  split; [exact (init_spec_initial lambda params M HA HY HX)|].
  split; [exact (Height_shaped HA)|].
  split; [apply shaped_Gemm, HX|]. split; [apply (Hwf O)|].
  split; [reflexivity|].
  split; [intros j; apply state_at_constants|].
  split; [|exact (exact_run_states A X lambda params M HY)].
  intros j i c Hi Hc.
  apply (body_spec_iteration lambda HA HM j (Hwf j) Hi Hc).
Qed.
End Exact_theorems.

(** ** The identity design *)

Section Identity_facts.
Context {T : Type} {SC : Scalar T}.

Lemma shaped_map_seq h w (f : nat -> nat -> T) :
  shaped h w (map (fun j => map (fun i => f i j) (seq 0 h)) (seq 0 w)).
Proof.
  split; [now rewrite length_map, length_seq|].
  apply Forall_forall. intros c Hc. apply in_map_iff in Hc.
  destruct Hc as (j & <- & _). now rewrite length_map, length_seq.
Qed.

Lemma entry_map_seq h w (f : nat -> nat -> T) i j :
  i < h -> j < w ->
  entry (map (fun j => map (fun i => f i j) (seq 0 h)) (seq 0 w)) i j = f i j.
Proof.
  intros Hi Hj. unfold entry, Vector.
  rewrite (nth_map_seq (fun j => map (fun i => f i j) (seq 0 h)) [] Hj).
  now rewrite nth_map_seq.
Qed.

Lemma shaped_identity m : shaped m m (identity m).
Proof. apply shaped_map_seq. Qed.

Lemma entry_identity m i j :
  i < m -> j < m ->
  entry (identity m) i j = if Nat.eqb i j then s_one else s_zero.
Proof.
  intros Hi Hj.
  exact (entry_map_seq (fun i j => if Nat.eqb i j then s_one else s_zero)
           Hi Hj).
Qed.

Lemma shaped_zero_matrix h w : shaped h w (zero_matrix h w).
Proof. apply (shaped_map_seq h w (fun _ _ => s_zero)). Qed.

Lemma entry_zero_matrix h w i j :
  i < h -> j < w -> entry (zero_matrix h w) i j = s_zero.
Proof. intros Hi Hj. exact (entry_map_seq (fun _ _ => s_zero) Hi Hj). Qed.
End Identity_facts.

Section Exact_identity.
Local Open Scope R_scope.

Lemma rsum_delta m i f :
  (i < m)%nat -> rsum m (fun l => (if Nat.eqb l i then 1 else 0) * f l) = f i.
Proof.
  induction m as [|m IH]; intros Hi; [lia|]. simpl.
  destruct (Nat.eqb m i) eqn:E.
  - apply Nat.eqb_eq in E. subst m. rewrite rsum_zero; [ring|].
    intros l Hl. destruct (Nat.eqb l i) eqn:E'; [|ring].
    apply Nat.eqb_eq in E'. lia.
  - apply Nat.eqb_neq in E. rewrite IH by lia. ring.
Qed.

Lemma rsum_nonneg m f : (forall l, (l < m)%nat -> 0 <= f l) -> 0 <= rsum m f.
Proof.
  induction m as [|m IH]; intros H; simpl; [lra|].
  pose proof (H m (Nat.lt_succ_diag_r m)).
  assert (0 <= rsum m f) by (apply IH; auto). lra.
Qed.

Lemma rsum_squares_pos m f :
  (exists i, (i < m)%nat /\ f i <> 0) -> 0 < rsum m (fun l => f l * f l).
Proof.
  induction m as [|m IH]; intros (i & Hi & Hne); [lia|]. simpl.
  assert (0 <= rsum m (fun l => f l * f l))
    by (apply rsum_nonneg; intros; nra).
  destruct (Nat.eq_dec i m) as [->|Hd].
  - assert (0 < f m * f m) by nra. lra.
  - assert (0 < rsum m (fun l => f l * f l))
      by (apply IH; exists i; split; [lia|exact Hne]).
    assert (0 <= f m * f m) by nra. lra.
Qed.

Lemma AtY_identity m (Y : Matrix (T:=R)) i j :
  (i < m)%nat -> AtY (identity m) Y m i j = entry Y i j.
Proof.
  intros Hi. unfold AtY.
  rewrite (rsum_ext _ (fun l => (if Nat.eqb l i then 1 else 0) * entry Y l j)).
  - exact (rsum_delta (fun l => entry Y l j) Hi).
  - intros l Hl. now rewrite entry_identity.
Qed.

Lemma normal_op_identity m (V : Matrix (T:=R)) i j :
  (i < m)%nat -> normal_op (identity m) 0 m m V i j = entry V i j.
Proof.
  intros Hi. unfold normal_op.
  rewrite (rsum_ext _
    (fun l => (if Nat.eqb l i then 1 else 0) * entry V l j)).
  - rewrite (rsum_delta (fun l => entry V l j) Hi). ring.
  - intros l Hl. rewrite entry_identity by assumption. f_equal.
    rewrite (rsum_ext _
      (fun p => (if Nat.eqb p l then 1 else 0) * entry V p j)).
    + exact (rsum_delta (fun p => entry V p j) Hl).
    + intros p Hp. rewrite entry_identity by assumption.
      now rewrite Nat.eqb_sym.
Qed.
End Exact_identity.

Section Exact_recovery.
Local Open Scope R_scope.
Variables (m k : nat) (Y : Matrix (T:=R)).
Variable params : krylov_iter_params_t (T:=R).

Abbreviation A := (identity (T:=R) m).
Abbreviation X := (zero_matrix (T:=R) m k).
Abbreviation M := (outplace_id_precond_t (T:=R)).
Abbreviation s0 := (cg_init A Y X 0 params M).
Abbreviation body := (cg_body A 0 M (Height A) k (negb (is_id M))).
Abbreviation s1 := (body O s0).

Hypothesis HY : shaped m k Y.

Lemma id_precond_shaped : precond_shaped M m k.
Proof. intros R1 z HR1 _. exact HR1. Qed.

Lemma recovery_wf0 : wf_state M m m k s0.
Proof. apply init_wf; [exact HY | apply shaped_zero_matrix]. Qed.

Lemma recovery_wf1 : wf_state M m m k s1.
Proof. apply body_wf; [exact id_precond_shaped | exact recovery_wf0]. Qed.

Lemma recovery_B : cgB s0 = Y.
Proof.
  apply (matrix_ext (h:=m) (w:=k)); [|exact HY|].
  - apply shaped_Gemm, shaped_zero_matrix.
  - intros i j Hi Hj.
    destruct (init_spec_initial 0 params M (shaped_identity m) HY
                (shaped_zero_matrix m k) Hi Hj) as (HB & _).
    rewrite HB. now apply AtY_identity.
Qed.

Lemma recovery_R0 : cgR s0 = Y.
Proof.
  apply (matrix_ext (h:=m) (w:=k)); [|exact HY|].
  - apply recovery_wf0.
  - intros i j Hi Hj.
    destruct (init_spec_initial 0 params M (shaped_identity m) HY
                (shaped_zero_matrix m k) Hi Hj) as (_ & HR).
    rewrite HR, recovery_B, normal_op_identity by exact Hi.
    rewrite entry_zero_matrix by assumption. cbn [s_zero reals]. ring.
Qed.

Lemma recovery_rho c : (c < k)%nat -> nth c (rho s1) 0 = sqnorm m Y c.
Proof.
  intros Hc. rewrite body_rho_plain by reflexivity.
  pose proof (ColumnDot_nth (cgR s0) (cgR s0) (nrmb s0) (j:=c)) as Hcd.
  cbn [s_zero reals] in Hcd.
  change (ressqr s0) with (ColumnDot (cgR s0) (cgR s0) (nrmb s0)).
  rewrite Hcd.
  - rewrite recovery_R0. apply dot_rsum; exact (shaped_col HY Hc).
  - destruct HY as (Hk & _).
    simpl. rewrite ColumnNrm2_length, build_compatible_length.
    unfold Width. lia.
Qed.

Lemma recovery_step : spec_iteration A 0 m m k (cgR s0) s0 s1.
Proof.
  exact (body_spec_iteration 0 (shaped_identity m) id_precond_shaped O
           recovery_wf0).
Qed.

Lemma recovery_nrmb c :
  (c < k)%nat -> nth c (nrmb s1) 0 = R_sqrt.sqrt (sqnorm m Y c).
Proof.
  intros Hc. change (nrmb s1) with (nrmb s0).
  pose proof (ColumnNrm2_nth (cgB s0) (build_compatible (Width Y)) (j:=c))
    as Hn.
  cbn [s_zero s_sqrt reals] in Hn.
  change (nrmb s0) with (ColumnNrm2 (cgB s0) (build_compatible (Width Y))).
  rewrite Hn.
  - rewrite recovery_B. f_equal. apply dot_rsum; exact (shaped_col HY Hc).
  - rewrite build_compatible_length. destruct HY as (Hk & _).
    unfold Width. lia.
Qed.

Lemma recovery_P : cgP s1 = Y.
Proof.
  apply (matrix_ext (h:=m) (w:=k)); [apply recovery_wf1|exact HY|].
  intros i c Hi Hc. destruct (recovery_step Hi Hc) as (HP & _).
  rewrite HP, recovery_R0. change (cgP s0) with X.
  rewrite entry_zero_matrix by assumption. cbn [s_zero reals]. ring.
Qed.

Lemma recovery_Q : cgQ s1 = Y.
Proof.
  apply (matrix_ext (h:=m) (w:=k)); [apply recovery_wf1|exact HY|].
  intros i c Hi Hc. destruct (recovery_step Hi Hc) as (_ & HQ & _).
  rewrite HQ, recovery_P. now apply normal_op_identity.
Qed.

Hypothesis Hnz :
  forall c, (c < k)%nat -> exists i, (i < m)%nat /\ entry Y i c <> 0.

Lemma sqnorm_pos c : (c < k)%nat -> 0 < sqnorm m Y c.
Proof. intros Hc. apply rsum_squares_pos, Hnz, Hc. Qed.

Lemma recovery_alpha c : (c < k)%nat -> nth c (alpha s1) 0 = 1.
Proof.
  intros Hc. pose proof (sqnorm_pos Hc) as Hpos.
  destruct (Hnz Hc) as (i & Hi & _).
  destruct (recovery_step Hi Hc) as (_ & _ & Hrt & Hal & _).
  rewrite Hal, Hrt, recovery_rho, recovery_P, recovery_Q by exact Hc.
  fold (sqnorm m Y c). field. lra.
Qed.

Lemma recovery_X : cgX s1 = Y.
Proof.
  apply (matrix_ext (h:=m) (w:=k)); [apply recovery_wf1|exact HY|].
  intros i c Hi Hc. destruct (recovery_step Hi Hc) as (_ & _ & _ & _ & HX & _).
  rewrite HX, recovery_P, recovery_alpha by exact Hc.
  change (cgX s0) with X.
  rewrite entry_zero_matrix by assumption. cbn [s_zero reals]. ring.
Qed.

Lemma recovery_R1 i c : (i < m)%nat -> (c < k)%nat -> entry (cgR s1) i c = 0.
Proof.
  intros Hi Hc. destruct (recovery_step Hi Hc) as (_ & _ & _ & _ & _ & HR).
  rewrite HR, recovery_R0, recovery_Q, recovery_alpha by exact Hc. ring.
Qed.

Lemma recovery_ressqr c : (c < k)%nat -> nth c (ressqr s1) 0 = 0.
Proof.
  intros Hc.
  pose proof (body_ressqr A 0 M (Height A) k (negb (is_id M)) O s0 (i:=c))
    as Hr.
  cbn [s_zero reals] in Hr. rewrite Hr.
  - pose proof recovery_wf1 as (_ & _ & HR & _).
    rewrite (dot_rsum (m:=m)) by exact (shaped_col HR Hc).
    apply rsum_zero. intros i Hi.
    change (entry (cgR s1) i c * entry (cgR s1) i c = 0).
    rewrite recovery_R1 by assumption. ring.
  - pose proof recovery_wf0 as (_ & _ & _ & _ & _ & _ & Hl & _). lia.
Qed.

Lemma recovery_converged : all_converged k s1 = true.
Proof.
  apply all_converged_iff. intros c Hc. unfold column_converged.
  cbn [s_lt s_sqrt s_mul s_zero reals].
  rewrite recovery_ressqr, recovery_nrmb by exact Hc.
  change (cg_tolerance s1) with (clamp_tolerance (tolerance params)).
  rewrite sqrt_0.
  pose proof (proj1 clamp_exact_band (tolerance params)) as Ht.
  pose proof eps32_exact_bounds as He.
  pose proof (sqrt_lt_R0 _ (sqnorm_pos Hc)) as Hs.
  destruct (Rlt_dec 0 (clamp_tolerance (tolerance params)
                       * R_sqrt.sqrt (sqnorm m Y c))) as [_|Hn];
    [reflexivity|].
  exfalso. apply Hn. apply Rmult_lt_0_compat; lra.
Qed.

End Exact_recovery.

(** C9, as the code has it: in exact arithmetic, with the identity for
    [A], [lambda = 0], [X] zero, no preconditioner, an iteration limit of
    at least one, no zero column in [Y] and the log line defined, the
    call runs one iteration, returns [Success] and leaves [X = Y]. *)
Theorem exact_recovery (m k : nat) (Y : Matrix (T:=R))
    (params : krylov_iter_params_t (T:=R)) :
  shaped m k Y ->
  (forall c, c < k -> exists i, i < m /\ entry Y i c <> 0%R) ->
  (1 <= iter_lim params)%Z ->
  log_line_defined params = true ->
  let r := factorizedCG (identity m) Y (zero_matrix m k) 0%R params
             outplace_id_precond_t in
  ret_of r = Some Success /\ iterations_of r = 1 /\ cgX (final_of r) = Y.
Proof.
  intros HY Hnz HL Hd r. subst r. unfold factorizedCG.
  destruct (Z.to_nat (iter_lim params)) as [|L'] eqn:EL; [lia|].
  pose proof HY as (Hk & _). unfold Width. rewrite Hk.
  rewrite cg_loop_step by exact Hd.
  rewrite (recovery_converged params HY Hnz).
  split; [reflexivity|]. split; [reflexivity|].
  exact (recovery_X params HY Hnz).
Qed.

(** ** A right-hand side of norm zero *)

Section Zero_norm.
Context {T : Type} {SC : Scalar T}.
Variables (A Y X : Matrix (T:=T)) (lambda : T).
Variables (params : krylov_iter_params_t (T:=T)).
Variable M : outplace_precond_t (T:=T).
Variable i : nat.

Abbreviation k := (Width Y).
Abbreviation L := (Z.to_nat (iter_lim params)).
Abbreviation s0 := (cg_init A Y X lambda params M).
Abbreviation at_ := (state_at A lambda M (Height A) k (negb (is_id M))).
Abbreviation r := (factorizedCG A Y X lambda params M).

(** No square root is below a multiple of zero. *)
Hypothesis sqrt_not_below_zero :
  forall x t : T, s_lt (s_sqrt x) (s_mul t s_zero) = false.
Hypothesis Hi : i < k.
Hypothesis Hzero : nth i (nrmb s0) s_zero = s_zero.

Lemma zero_norm_fails j : column_converged (at_ j s0) i = false.
Proof.
  unfold column_converged.
  destruct (state_at_constants A lambda M (Height A) k (negb (is_id M)) j s0)
    as (_ & -> & _).
  rewrite Hzero. apply sqrt_not_below_zero.
Qed.

Lemma zero_norm_limit :
  ret_of r <> Some Success /\
  (log_line_defined params = true \/ L = 0 ->
   ret_of r = Some IterationLimitExceeded /\ iterations_of r = L).
Proof.
  destruct (factorizedCG_spec A Y X lambda params M)
    as (_ & _ & [(_ & _ & Hc & _)|[(Hr & Hm & _)|(Hr & _ & HL & Hd)]]).
  - rewrite (all_converged_false _ Hi (zero_norm_fails _)) in Hc.
    discriminate.
  - rewrite Hr. split; [discriminate|]. intros _. split; [reflexivity|exact Hm].
  - rewrite Hr. split; [discriminate|]. intros [Hd'|HL0]; [congruence|lia].
Qed.

End Zero_norm.


Lemma exact_sqrt_not_below_zero (x t : R) :
  s_lt (s_sqrt x) (s_mul t s_zero) = false.
Proof.
  cbn [s_lt s_sqrt s_mul s_zero reals].
  pose proof (sqrt_pos x) as Hx.
  destruct (Rlt_dec (R_sqrt.sqrt x) (t * 0)) as [Hlt|_]; [|reflexivity].
  rewrite Rmult_0_r in Hlt. lra.
Qed.



Lemma shaped_zero_rhs : shaped 1 1 (zero_rhs_Y (T:=R)).
Proof. split; [reflexivity|]. repeat constructor. Qed.

Lemma zero_rhs_exact_nrmb tol lim :
  nth 0 (nrmb (zero_rhs_init (T:=R) tol lim)) s_zero = s_zero.
Proof.
  set (s := zero_rhs_init tol lim).
  change (nrmb s) with (ColumnNrm2 (cgB s) (build_compatible 1)).
  rewrite ColumnNrm2_nth by (simpl; lia).
  unfold s, zero_rhs_init. cbn [s_zero reals].
  rewrite (recovery_B (quiet_params tol lim) shaped_zero_rhs).
  cbn [zero_rhs_Y nth dot dot_from s_sqrt s_add s_mul s_zero reals].
  replace (0 + 0 * 0)%R with 0%R by ring. apply sqrt_0.
Qed.

(** C9 as stated fails: in exact arithmetic, with the zero right-hand
    side [Y = (0)], the identity for [A], [lambda = 0] and [X] zero, the
    call does not return [Success] although an iteration ran. *)
Lemma exact_recovery_counterexample :
  ret_of (zero_rhs_run (/ 2)%R 1) = Some IterationLimitExceeded /\
  ret_of (zero_rhs_run (/ 2)%R 1) <> Some Success /\
  iterations_of (zero_rhs_run (/ 2)%R 1) = 1.
Proof.
  destruct (zero_norm_limit (identity 1) zero_rhs_Y (zero_matrix 1 1) 0%R
              (quiet_params (/ 2)%R 1) outplace_id_precond_t
              exact_sqrt_not_below_zero (Nat.lt_0_succ 0)
              (zero_rhs_exact_nrmb (/ 2)%R 1)) as (_ & Hlim).
  destruct (Hlim (or_introl eq_refl)) as (Hr & Hm).
  unfold zero_rhs_run. cbn [s_zero reals]. rewrite Hr, Hm.
  split; [reflexivity|]. split; [discriminate|reflexivity].
Qed.

(** In binary64 the identity design recovers this right-hand side in one
    iteration. *)
Example identity_binary64 :
  let r := factorizedCG (identity 2) [[3; -4]; [0.5; 2]]%float
             (zero_matrix 2 2) 0%float (quiet_params 0x1p-20%float 50)
             outplace_id_precond_t in
  ret_of r = Some Success /\ iterations_of r = 1 /\
  cgX (final_of r) = [[3; -4]; [0.5; 2]]%float.
Proof. vm_compute. repeat split. Qed.

(** It does not recover a right-hand side whose squared norm overflows:
    [rho] and [rhotmp] are infinite and [alpha] is not a number. *)
Example identity_overflow_binary64 :
  let r := factorizedCG (identity 1) [[0x1p+700]]%float
             (zero_matrix 1 1) 0%float (quiet_params 0x1p-20%float 3)
             outplace_id_precond_t in
  ret_of r = Some IterationLimitExceeded /\ cgX (final_of r) = [[nan]].
Proof. vm_compute. repeat split. Qed.

(** In binary64 the run on the zero right-hand side leaves [X] not a
    number. *)
Example zero_rhs_binary64 :
  ret_of (zero_rhs_run 0x1p-20%float 1) = Some IterationLimitExceeded /\
  cgX (final_of (zero_rhs_run 0x1p-20%float 1)) = [[nan]].
Proof. split; vm_compute; reflexivity. Qed.

(** ** Instances of the theorems that have hypotheses *)

Lemma shaped_diag12 :
  shaped 2 2 (diag12_A (T:=R)) /\ shaped 2 1 (diag12_Y (T:=R)) /\
  shaped 2 1 (diag12_X (T:=R)).
Proof. repeat split; repeat constructor. Qed.

Lemma iteration_recurrence_witness :
  shaped 2 2 (diag12_A (T:=R)) /\ shaped 2 1 (diag12_Y (T:=R)) /\
  shaped 2 1 (diag12_X (T:=R)) /\
  precond_shaped (outplace_id_precond_t (T:=R)) 2 1 /\
  (forall j,
     spec_iteration diag12_A 0%R 2 2 1
       (Z_of outplace_id_precond_t (diag12_at (/ 2)%R 5 j))
       (diag12_at (/ 2)%R 5 j) (diag12_at (/ 2)%R 5 (S j))) /\
  (forall j, wf_state outplace_id_precond_t 2 2 1 (diag12_at (/ 2)%R 5 j)) /\
  final_of (diag12_run (/ 2)%R 5)
  = diag12_at (/ 2)%R 5 (iterations_of (diag12_run (/ 2)%R 5)).
Proof.
  destruct shaped_diag12 as (HA & HY & HX).
  split; [exact HA|]. split; [exact HY|]. split; [exact HX|].
  split; [exact (id_precond_shaped (m:=2) (k:=1))|].
  exact (iteration_recurrence 0%R (quiet_params (/ 2)%R 5) HA HY HX
           (id_precond_shaped (m:=2) (k:=1))).
Defined.

Lemma initial_residual_witness :
  shaped 2 2 (diag12_A (T:=R)) /\ shaped 2 1 (diag12_Y (T:=R)) /\
  shaped 2 1 (diag12_X (T:=R)) /\
  precond_shaped (outplace_id_precond_t (T:=R)) 2 1 /\
  spec_initial diag12_A diag12_Y diag12_X 0%R 2 2 1 (diag12_init (/ 2)%R 5) /\
  symm_sections (diag12_init (/ 2)%R 5) = 1.
Proof.
  destruct shaped_diag12 as (HA & HY & HX).
  split; [exact HA|]. split; [exact HY|]. split; [exact HX|].
  split; [exact (id_precond_shaped (m:=2) (k:=1))|].
  destruct (initial_residual 0%R (quiet_params (/ 2)%R 5) HA HY HX
              (id_precond_shaped (m:=2) (k:=1)))
    as (Hinit & _ & _ & _ & Hs & _).
  split; [exact Hinit | exact Hs].
Defined.

Lemma momentum_coefficient_witness :
  0 < 1 /\
  beta (diag12_at 0x1p-20%float 5 1)
  = map (fun _ => s_zero) (beta (diag12_init 0x1p-20%float 5)) /\
  nth 0 (beta (diag12_at 0x1p-20%float 5 1)) s_zero = s_zero /\
  rho0 (diag12_at 0x1p-20%float 5 1) = rho (diag12_at 0x1p-20%float 5 1) /\
  nth 0 (beta (diag12_at 0x1p-20%float 5 2)) s_zero
  = s_div (nth 0 (rho (diag12_at 0x1p-20%float 5 2)) s_zero)
          (nth 0 (rho0 (diag12_at 0x1p-20%float 5 1)) s_zero) /\
  nth 0 (beta (diag12_at 0x1p-20%float 5 2)) s_zero
  = s_div (nth 0 (rho (diag12_at 0x1p-20%float 5 2)) s_zero)
          (nth 0 (rho (diag12_at 0x1p-20%float 5 1)) s_zero).
Proof.
  split; [lia|].
  exact (momentum_coefficient diag12_A s_zero outplace_id_precond_t
           (Height (diag12_A (T:=float))) false
           (diag12_init 0x1p-20%float 5) 0 (Nat.lt_0_succ 0)).
Defined.

Lemma exact_recovery_witness :
  shaped 2 2 (identity (T:=R) 2) /\
  (forall c, c < 2 ->
     exists i, i < 2 /\ entry (identity (T:=R) 2) i c <> 0%R) /\
  (1 <= iter_lim (quiet_params (/ 2)%R 50))%Z /\
  log_line_defined (quiet_params (/ 2)%R 50) = true /\
  ret_of (factorizedCG (identity 2) (identity 2) (zero_matrix 2 2) 0%R
            (quiet_params (/ 2)%R 50) outplace_id_precond_t)
  = Some Success /\
  iterations_of (factorizedCG (identity 2) (identity 2) (zero_matrix 2 2) 0%R
                   (quiet_params (/ 2)%R 50) outplace_id_precond_t) = 1 /\
  cgX (final_of (factorizedCG (identity 2) (identity 2) (zero_matrix 2 2) 0%R
                   (quiet_params (/ 2)%R 50) outplace_id_precond_t))
  = identity 2.
Proof.
  assert (forall c, c < 2 ->
            exists i, i < 2 /\ entry (identity (T:=R) 2) i c <> 0%R) as Hnz.
  { intros c Hc. exists c. split; [exact Hc|].
    rewrite entry_identity, Nat.eqb_refl by exact Hc.
    cbn [s_one reals]. lra. }
  assert (1 <= iter_lim (quiet_params (/ 2)%R 50))%Z as HL by (simpl; lia).
  split; [exact (shaped_identity 2)|]. split; [exact Hnz|].
  split; [exact HL|]. split; [reflexivity|].
  exact (exact_recovery (quiet_params (/ 2)%R 50) (shaped_identity 2) Hnz HL
           eq_refl).
Defined.


(** * Further properties of [factorizedCG] *)

(** ** The parameters of the log line *)

Section Log_parameters_facts.
Context {T : Type} {SC : Scalar T}.
Variables (A : Matrix (T:=T)) (lambda : T) (M : outplace_precond_t (T:=T)).
Variables (n k : nat) (isprecond : bool).
Variables (params params' : krylov_iter_params_t (T:=T)).

Hypothesis Hd : log_line_defined params = true.
Hypothesis Hd' : log_line_defined params' = true.

Lemma cg_loop_log_params left itn s :
  cg_loop A lambda M n k isprecond params' left itn s
  = cg_loop A lambda M n k isprecond params left itn s.
Proof.
  revert itn s; induction left as [|left IH]; intros itn s;
    [reflexivity|].
  rewrite (cg_loop_step _ _ _ _ _ _ _ _ _ _ Hd),
    (cg_loop_step _ _ _ _ _ _ _ _ _ _ Hd').
  destruct (all_converged k (cg_body A lambda M n k isprecond itn s));
    [reflexivity|apply IH].
Qed.
End Log_parameters_facts.

Section Log_parameters.
Context {T : Type} {SC : Scalar T}.
Variables (A Y X : Matrix (T:=T)) (lambda : T).
Variables (params params' : krylov_iter_params_t (T:=T)).
Variable M : outplace_precond_t (T:=T).

Abbreviation s0 := (cg_init A Y X lambda params M).
Abbreviation r := (factorizedCG A Y X lambda params M).
Abbreviation r' := (factorizedCG A Y X lambda params' M).

(** X1: [am_i_printing], [log_level] and [res_print] act on the call
    through the remainder of line 156 only.  That line is undefined
    exactly when [am_i_printing] holds, [log_level] is at least 2 and
    [res_print] is zero; a call that then enters the loop is stopped in
    its first iteration, after the first update of the blocks, and
    returns nothing.  Two calls in which the line is defined, with the
    same tolerance and iteration limit, end alike: same return value,
    same number of iterations, same final state. *)
Theorem log_parameters_effect :
  (log_line_defined params = false <->
   am_i_printing params = true /\ (2 <= log_level params)%Z /\
   res_print params = 0%Z) /\
  (log_line_defined params = false -> (1 <= iter_lim params)%Z ->
   r = (None, 1,
        cg_body A lambda M (Height A) (Width Y) (negb (is_id M)) 0 s0)) /\
  (log_line_defined params = true -> log_line_defined params' = true ->
   tolerance params' = tolerance params ->
   iter_lim params' = iter_lim params ->
   r' = r).
Proof.
  split; [|split].
  - rewrite <- (log_guard_None params 0 0 0).
    exact (proj1 (log_guard_undefined params 0 0 0)).
  - intros Hd HL. unfold factorizedCG.
    destruct (Z.to_nat (iter_lim params)) as [|L'] eqn:EL; [lia|].
    now apply cg_loop_trap.
  - intros Hd Hd' Htol Hlim. unfold factorizedCG.
    assert (cg_init A Y X lambda params' M = s0) as ->
      by (unfold cg_init; now rewrite Htol).
    rewrite Hlim. now apply cg_loop_log_params.
Qed.
End Log_parameters.

(** ** The iteration limit and the number of columns at their bounds *)

Section Bounds.
Context {T : Type} {SC : Scalar T}.
Variables (A Y X : Matrix (T:=T)) (lambda : T).
Variables (params : krylov_iter_params_t (T:=T)).
Variable M : outplace_precond_t (T:=T).

Abbreviation s0 := (cg_init A Y X lambda params M).
Abbreviation r := (factorizedCG A Y X lambda params M).

(** X2: with an iteration limit of zero or less no iteration runs: the
    call returns [IterationLimitExceeded] with [X] as it was passed in,
    whatever the initial residual, after the one operator application of
    the initial residual. *)
Theorem no_iteration_allowed :
  (iter_lim params <= 0)%Z ->
  ret_of r = Some IterationLimitExceeded /\ iterations_of r = 0 /\
  final_of r = s0 /\ cgX (final_of r) = X /\
  symm_sections (final_of r) = 1.
Proof.
  intros HL. unfold factorizedCG.
  replace (Z.to_nat (iter_lim params)) with 0 by lia.
  repeat split.
Qed.

(** X3: when [Y] has no column there is nothing to converge, and the
    first iteration ends the call if the limit lets it run: with
    [Success] when the log line is defined, and without a return value,
    at the log line, when it is not. *)
Theorem no_right_hand_side :
  Width Y = 0 -> (1 <= iter_lim params)%Z ->
  iterations_of r = 1 /\
  (log_line_defined params = true -> ret_of r = Some Success) /\
  (log_line_defined params = false -> ret_of r = None).
Proof.
  intros Hk HL. unfold factorizedCG. rewrite Hk.
  destruct (Z.to_nat (iter_lim params)) as [|L'] eqn:EL; [lia|].
  destruct (log_line_defined params) eqn:Hd.
  - rewrite cg_loop_step by exact Hd.
    split; [reflexivity|]. split; [reflexivity|discriminate].
  - rewrite cg_loop_trap by exact Hd.
    split; [reflexivity|]. split; [discriminate|reflexivity].
Qed.
End Bounds.

(** ** The storage of [Z] *)

Section Ownership.
Context {T : Type} {SC : Scalar T}.
Variables (A Y X : Matrix (T:=T)) (lambda : T).
Variables (params : krylov_iter_params_t (T:=T)).
Variable M : outplace_precond_t (T:=T).

Abbreviation k := (Width Y).
Abbreviation isprecond := (negb (is_id M)).
Abbreviation s0 := (cg_init A Y X lambda params M).
Abbreviation at_ := (state_at A lambda M (Height A) k isprecond).
Abbreviation r := (factorizedCG A Y X lambda params M).

Lemma Z_kind_at j :
  if is_id M then cgZ (at_ j s0) = Zaliased
  else exists z, cgZ (at_ j s0) = Zowned z.
Proof.
  induction j as [|j IH].
  - simpl. destruct (is_id M); simpl; eauto.
  - change (at_ (S j) s0)
      with (cg_body A lambda M (Height A) k isprecond j (at_ j s0)).
    unfold cg_body, precondition. cbn [cgZ].
    destruct (is_id M); cbn [negb] in *.
    + rewrite IH. reflexivity.
    + destruct IH as (z & ->). cbn [Zwrite snd]. eauto.
Qed.

(** X4: [Z] is another name of [R] in every state of a call without
    preconditioner and a block of its own in every state of a call with
    one; so neither [M.apply(R, Z)] nor [base::Copy(R, Z)] changes [R],
    and the exit releases the block the call allocated, and only that:
    it never deletes [R]. *)
Theorem Z_storage :
  (forall j, cgZ (at_ j s0) = Zaliased <-> is_id M = true) /\
  (forall j, fst (precondition M isprecond (at_ j s0)) = cgR (at_ j s0)) /\
  (is_id M = true -> cleanup isprecond (cgZ (final_of r)) = ReleaseNothing) /\
  (is_id M = false ->
   exists z, cgZ (final_of r) = Zowned z /\
             cleanup isprecond (cgZ (final_of r)) = ReleaseOwned z).
Proof.
  assert (final_of r = at_ (iterations_of r) s0) as Hfin
    by exact (proj1 (factorizedCG_spec A Y X lambda params M)).
  split; [|split; [|split]].
  - intros j. pose proof (Z_kind_at j) as H.
    destruct (is_id M).
    + rewrite H. split; reflexivity.
    + destruct H as (z & ->). split; discriminate.
  - intros j. pose proof (Z_kind_at j) as H. unfold precondition.
    destruct (is_id M); cbn [negb] in *.
    + rewrite H. reflexivity.
    + destruct H as (z & ->). reflexivity.
  - intros ->. reflexivity.
  - intros Hid. rewrite Hfin.
    pose proof (Z_kind_at (iterations_of r)) as H. rewrite Hid in H |- *.
    destruct H as (z & Hz). exists z. rewrite Hz. split; reflexivity.
Qed.
End Ownership.

Lemma imap_const_ext {U V : Type} (g : nat -> V) (l l' : list U) :
  length l = length l' ->
  imap (fun j _ => g j) l = imap (fun j _ => g j) l'.
Proof.
  intros Hl. destruct l as [|a l], l' as [|b l']; try discriminate;
    [reflexivity|].
  apply (nth_ext _ _ (g 0) (g 0)); [now rewrite !imap_length|].
  intros i Hi. rewrite imap_length in Hi.
  rewrite (imap_nth _ (a :: l) a), (imap_nth _ (b :: l') b);
    [reflexivity | rewrite <- Hl; exact Hi | exact Hi].
Qed.

(** ** The preconditioned path with an identity transform *)

Section Copy_path.
Context {T : Type} {SC : Scalar T}.
Variables (A : Matrix (T:=T)) (lambda : T) (n k : nat).
Variable params : krylov_iter_params_t (T:=T).

Abbreviation body_id :=
  (cg_body A lambda outplace_id_precond_t n k false).
Abbreviation body_cp := (cg_body A lambda copy_precond n k true).
Abbreviation loop_id :=
  (cg_loop A lambda outplace_id_precond_t n k false params).
Abbreviation loop_cp := (cg_loop A lambda copy_precond n k true params).

Lemma ColumnDot_out (B C : Matrix (T:=T)) out out' :
  length out = length out' -> ColumnDot B C out = ColumnDot B C out'.
Proof.
  exact (imap_const_ext (fun j => dot (nth j B []) (nth j C [])) out out').
Qed.

Lemma body_copy_path itn s z :
  cgZ s = Zowned z -> rho_is_ressqr s ->
  set_Z Zaliased (body_cp itn s) = body_id itn (set_Z Zaliased s) /\
  (exists z', cgZ (body_cp itn s) = Zowned z') /\
  rho_is_ressqr (body_cp itn s).
Proof.
  intros HZ Hrho. unfold rho_is_ressqr in *.
  destruct s as [sX sB sH sP sR sQ sZ snb srs srho srho0 srt sal smal sbe
                stol ssy].
  cbn [cgZ cgR rho ressqr] in *. subst sZ.
  unfold cg_body, precondition, set_Z, copy_precond.
  cbn -[ColumnDot AxpyCols Axpy Gemm DiagonalScale Zero].
  rewrite Hrho.
  split; [reflexivity|]. split; [eauto|].
  apply ColumnDot_out. rewrite <- Hrho. now rewrite ColumnDot_length.
Qed.

Lemma all_converged_set_Z z s :
  all_converged k (set_Z z s) = all_converged k s.
Proof. reflexivity. Qed.

Lemma loop_copy_path left itn s z :
  cgZ s = Zowned z -> rho_is_ressqr s ->
  ret_of (loop_cp left itn s) = ret_of (loop_id left itn (set_Z Zaliased s)) /\
  iterations_of (loop_cp left itn s)
  = iterations_of (loop_id left itn (set_Z Zaliased s)) /\
  set_Z Zaliased (final_of (loop_cp left itn s))
  = final_of (loop_id left itn (set_Z Zaliased s)).
Proof.
  revert itn s z; induction left as [|left IH]; intros itn s z HZ Hrho.
  - repeat split.
  - destruct (body_copy_path itn HZ Hrho) as (Hb & (z' & HZ') & Hrho').
    cbn [cg_loop]. rewrite <- Hb, all_converged_set_Z.
    change (count_converged k (set_Z Zaliased (body_cp itn s)))
      with (count_converged k (body_cp itn s)).
    destruct (log_guard params itn (count_converged k (body_cp itn s)) k);
      [|repeat split].
    destruct (all_converged k (body_cp itn s)); [repeat split|].
    exact (IH (S itn) _ z' HZ' Hrho').
Qed.
End Copy_path.

Section Copy_theorem.
Context {T : Type} {SC : Scalar T}.
Variables (A Y X : Matrix (T:=T)) (lambda : T).
Variables (params : krylov_iter_params_t (T:=T)).

(** X5: the preconditioned path with a preconditioner that copies (the
    identity transform between different block types) computes what the
    path without preconditioner computes, in every scalar type: the same
    return value after the same number of iterations, and final states
    that differ in the storage of [Z] only; so the same [X]. *)
Theorem identity_preconditioned_path :
  let r_id := factorizedCG A Y X lambda params outplace_id_precond_t in
  let r_cp := factorizedCG A Y X lambda params copy_precond in
  ret_of r_cp = ret_of r_id /\
  iterations_of r_cp = iterations_of r_id /\
  set_Z Zaliased (final_of r_cp) = final_of r_id /\
  cgX (final_of r_cp) = cgX (final_of r_id).
Proof.
  intros r_id r_cp.
  assert (ret_of r_cp = ret_of r_id /\
          iterations_of r_cp = iterations_of r_id /\
          set_Z Zaliased (final_of r_cp) = final_of r_id) as (H1 & H2 & H3).
  { apply (@loop_copy_path _ _ A lambda (Height A) (Width Y) params
             (Z.to_nat (iter_lim params)) 0
             (cg_init A Y X lambda params copy_precond) X);
      reflexivity. }
  repeat split; try assumption.
  rewrite <- H3. reflexivity.
Qed.
End Copy_theorem.

(** ** The residual of the normal equations *)

Section Exact_linear.
Local Open Scope R_scope.

Lemma rsum_plus m f g :
  rsum m (fun l => f l + g l) = rsum m f + rsum m g.
Proof. induction m as [|m IH]; simpl; [ring|]. rewrite IH. ring. Qed.

Lemma rsum_scal m f a : rsum m (fun l => f l * a) = rsum m f * a.
Proof. induction m as [|m IH]; simpl; [ring|]. rewrite IH. ring. Qed.

(** The operator is linear in the block, column by column. *)
Lemma normal_op_update (A V V' P : Matrix (T:=R)) lambda n d a i c :
  (forall m, (m < d)%nat -> entry V' m c = entry V m c + entry P m c * a) ->
  (i < d)%nat ->
  normal_op A lambda n d V' i c
  = normal_op A lambda n d V i c + normal_op A lambda n d P i c * a.
Proof.
  intros HV Hi. unfold normal_op. rewrite (HV i Hi).
  rewrite (rsum_ext _
    (fun l => entry A l i * rsum d (fun m => entry A l m * entry V m c)
              + entry A l i * rsum d (fun m => entry A l m * entry P m c)
                * a)).
  - rewrite rsum_plus, rsum_scal. ring.
  - intros l _.
    rewrite (rsum_ext _
      (fun m => entry A l m * entry V m c + entry A l m * entry P m c * a)).
    + rewrite rsum_plus, rsum_scal. ring.
    + intros m Hm. rewrite (HV m Hm). ring.
Qed.
End Exact_linear.

Section Exact_residual.
Local Open Scope R_scope.
Variables (A Y X : Matrix (T:=R)) (lambda : R).
Variables (params : krylov_iter_params_t (T:=R)).
Variable M : outplace_precond_t (T:=R).
Variables (n d k : nat).

Abbreviation isprecond := (negb (is_id M)).
Abbreviation body := (cg_body A lambda M (Height A) k isprecond).
Abbreviation at_ := (state_at A lambda M (Height A) k isprecond).
Abbreviation s0 := (cg_init A Y X lambda params M).
Abbreviation r := (factorizedCG A Y X lambda params M).

Hypothesis HA : shaped n d A.
Hypothesis HY : shaped n k Y.
Hypothesis HX : shaped d k X.
Hypothesis HM : precond_shaped M d k.

Lemma residual_at j i c :
  (i < d)%nat -> (c < k)%nat ->
  entry (cgR (at_ j s0)) i c
  = true_residual A Y lambda n d (cgX (at_ j s0)) i c.
Proof.
  unfold true_residual. revert i. induction j as [|j IH]; intros i Hi Hc.
  - destruct (init_spec_initial lambda params M HA HY HX Hi Hc) as (HB & HR).
    change (at_ 0 s0) with s0. rewrite HR, HB. reflexivity.
  - change (at_ (S j) s0) with (body j (at_ j s0)).
    pose proof (body_spec_iteration lambda HA HM j
                  (at_wf A lambda params HY HX HM j)) as Hit.
    destruct (Hit i c Hi Hc) as (_ & HQ & _ & _ & _ & HR).
    rewrite HR, HQ, (IH i Hi Hc).
    rewrite (@normal_op_update A (cgX (at_ j s0)) (cgX (body j (at_ j s0)))
               (cgP (body j (at_ j s0))) lambda n d
               (nth c (alpha (body j (at_ j s0))) 0) i c).
    + ring.
    + intros m Hm. now destruct (Hit m c Hm Hc) as (_ & _ & _ & _ & HX' & _).
    + exact Hi.
Qed.

Lemma ressqr_at j c :
  (c < k)%nat ->
  nth c (ressqr (at_ j s0)) 0
  = rsum d (fun i => true_residual A Y lambda n d (cgX (at_ j s0)) i c
                     * true_residual A Y lambda n d (cgX (at_ j s0)) i c).
Proof.
  intros Hc.
  pose proof (at_wf A lambda params HY HX HM j)
    as (_ & _ & HR & _ & _ & _ & Hr & _).
  assert (nth c (ressqr (at_ j s0)) 0
          = dot (nth c (cgR (at_ j s0)) []) (nth c (cgR (at_ j s0)) []))
    as ->.
  { destruct j as [|j].
    - cbn [state_at ressqr cg_init].
      pose proof (ColumnDot_nth (cgR s0) (cgR s0) (nrmb s0) (j:=c)) as H.
      cbn [s_zero reals] in H. apply H.
      rewrite init_nrmb_length, (Width_Y HY). exact Hc.
    - change (at_ (S j) s0) with (body j (at_ j s0)).
      pose proof (body_ressqr A lambda M (Height A) k isprecond j
                    (at_ j s0) (i:=c)) as H.
      cbn [s_zero reals] in H. apply H.
      pose proof (at_wf A lambda params HY HX HM j)
        as (_ & _ & _ & _ & _ & _ & Hr' & _).
      rewrite Hr'. exact Hc. }
  rewrite (dot_rsum (m:=d)) by exact (shaped_col HR Hc).
  apply rsum_ext. intros i Hi.
  change (nth i (nth c (cgR (at_ j s0)) []) 0)
    with (entry (cgR (at_ j s0)) i c).
  now rewrite (residual_at j Hi Hc).
Qed.

Lemma nrmb_at j c :
  (c < k)%nat -> nth c (nrmb (at_ j s0)) 0 = rhs_norm A Y n d c.
Proof.
  intros Hc.
  destruct (state_at_constants A lambda M (Height A) k isprecond j s0)
    as (_ & -> & _).
  cbn [nrmb cg_init].
  pose proof (ColumnNrm2_nth (cgB s0) (build_compatible (Width Y)) (j:=c)) as H.
  cbn [s_zero s_sqrt reals] in H. cbn [cgB cg_init] in H. rewrite H
    by (rewrite build_compatible_length, (Width_Y HY); exact Hc).
  unfold rhs_norm. f_equal.
  pose proof (shaped_Gemm TRANSPOSE NORMAL s_one A Y s_zero HX) as HB.
  rewrite (dot_rsum (m:=d)) by exact (shaped_col HB Hc).
  apply rsum_ext. intros i Hi.
  destruct (init_spec_initial lambda params M HA HY HX Hi Hc) as (HBe & _).
  f_equal; exact HBe.
Qed.

Lemma converged_at j c :
  (c < k)%nat ->
  column_converged (at_ j s0) c = true <->
  residual_norm A Y lambda n d (cgX (at_ j s0)) c
  < clamp_tolerance (tolerance params) * rhs_norm A Y n d c.
Proof.
  intros Hc. unfold column_converged, residual_norm.
  cbn [s_lt s_sqrt s_mul s_zero reals].
  rewrite (ressqr_at j Hc), (nrmb_at j Hc).
  destruct (state_at_constants A lambda M (Height A) k isprecond j s0)
    as (_ & _ & -> & _).
  cbn [cg_tolerance cg_init].
  match goal with |- context [Rlt_dec ?a ?b] => destruct (Rlt_dec a b) end;
    split; auto; discriminate.
Qed.

Lemma run_spec :
  final_of r = at_ (iterations_of r) s0 /\
  (ret_of r = Some Success ->
   (0 < iterations_of r)%nat /\
   all_converged k (at_ (iterations_of r) s0) = true) /\
  (ret_of r = Some IterationLimitExceeded ->
   iterations_of r = Z.to_nat (iter_lim params) /\
   ((0 < iterations_of r)%nat ->
    all_converged k (at_ (iterations_of r) s0) = false)).
Proof.
  pose proof (factorizedCG_spec A Y X lambda params M) as H.
  rewrite (Width_Y HY) in H. destruct H as (Hfin & _ & Hret).
  split; [exact Hfin|].
  destruct Hret as [(H1 & H2 & H3 & _)|[(H1 & H2 & H3)|(H1 & _)]];
    rewrite H1; (split; [intros E|intros E]); try discriminate.
  - split; [lia|exact H3].
  - split; [exact H2|]. intros Hpos. exact (proj1 (H3 Hpos)).
Qed.
End Exact_residual.

Section Exact_residual_theorems.
Local Open Scope R_scope.
Variables (A Y X : Matrix (T:=R)) (lambda : R).
Variables (params : krylov_iter_params_t (T:=R)).
Variable M : outplace_precond_t (T:=R).
Variables (n d k : nat).

Abbreviation s0 := (cg_init A Y X lambda params M).
Abbreviation r := (factorizedCG A Y X lambda params M).

(** X6: in exact arithmetic, for blocks of matching shapes, the block [R]
    that the loop updates by recurrence is the residual of the normal
    equations at the current [X], [A^T Y - (A^T A + lambda*n I) X], after
    every number of iterations and in the state the call ends in; the
    preconditioner has no part in it. *)
Theorem recurrence_keeps_true_residual :
  shaped n d A -> shaped n k Y -> shaped d k X -> precond_shaped M d k ->
  (forall j i c, (i < d)%nat -> (c < k)%nat ->
     let s := state_at A lambda M (Height A) k (negb (is_id M)) j s0 in
     entry (cgR s) i c = true_residual A Y lambda n d (cgX s) i c) /\
  (forall i c, (i < d)%nat -> (c < k)%nat ->
     entry (cgR (final_of r)) i c
     = true_residual A Y lambda n d (cgX (final_of r)) i c).
Proof.
  intros HA HY HX HM. split.
  - intros j i c Hi Hc. exact (residual_at lambda params HA HY HX HM j Hi Hc).
  - intros i c Hi Hc.
    rewrite (proj1 (run_spec A X lambda params M HY)).
    exact (residual_at lambda params HA HY HX HM _ Hi Hc).
Qed.

(** X7: in exact arithmetic, for blocks of matching shapes, the return
    value tells the truth about the [X] that is returned.  After
    [Success], in every column the norm of the residual of the normal
    equations at [X] is below the clamped tolerance times the norm of
    that column of [A^T Y], hence below that norm.  After
    [IterationLimitExceeded] with a limit of at least one, some column of
    the returned [X] fails that test. *)
Theorem status_bounds_residual :
  shaped n d A -> shaped n k Y -> shaped d k X -> precond_shaped M d k ->
  (ret_of r = Some Success ->
   forall c, (c < k)%nat ->
     residual_norm A Y lambda n d (cgX (final_of r)) c
     < clamp_tolerance (tolerance params) * rhs_norm A Y n d c /\
     residual_norm A Y lambda n d (cgX (final_of r)) c
     < rhs_norm A Y n d c) /\
  (ret_of r = Some IterationLimitExceeded -> (1 <= iter_lim params)%Z ->
   exists c, (c < k)%nat /\
     ~ residual_norm A Y lambda n d (cgX (final_of r)) c
       < clamp_tolerance (tolerance params) * rhs_norm A Y n d c).
Proof.
  intros HA HY HX HM.
  destruct (run_spec A X lambda params M HY) as (Hfin & HrS & HrL).
  rewrite Hfin. split.
  - intros HS. destruct (HrS HS) as (_ & Hall).
    intros c Hc. rewrite all_converged_iff in Hall.
    pose proof (proj1 (converged_at lambda params HA HY HX HM _ Hc)
                  (Hall c Hc)) as Hlt.
    split; [exact Hlt|].
    pose proof (proj1 clamp_exact_band (tolerance params)) as Ht.
    pose proof eps32_exact_bounds as He.
    assert (0 <= residual_norm A Y lambda n d
                   (cgX (state_at A lambda M (Height A) k (negb (is_id M))
                           (iterations_of r) s0)) c) as H0
      by apply sqrt_pos.
    assert (0 <= rhs_norm A Y n d c) as H1 by apply sqrt_pos.
    nra.
  - intros HL Hlim. destruct (HrL HL) as (Hm & Hno).
    assert (0 < iterations_of r)%nat as Hpos by lia.
    destruct (all_converged_false_ex _ _ (Hno Hpos)) as (c & Hc & Hf).
    exists c. split; [exact Hc|]. intros Hlt.
    apply (converged_at lambda params HA HY HX HM _ Hc) in Hlt.
    congruence.
Qed.
End Exact_residual_theorems.

(** ** The columns do not interact *)

Section Column_facts.
Context {T : Type} {SC : Scalar T}.
Implicit Types (A B C X Y : Matrix (T:=T)) (u v out : Vector (T:=T)).

Lemma column_imap (f : nat -> Vector (T:=T) -> Vector (T:=T)) C j :
  j < length C -> column (imap f C) j = [f j (nth j C [])].
Proof. intros Hj. unfold column. now rewrite (imap_nth f C [] []). Qed.

Lemma length_Gemm oA oB al A B be C :
  length (Gemm oA oB al A B be C) = length C.
Proof. apply imap_length. Qed.

Lemma length_Axpy al X Y : length (Axpy al X Y) = length Y.
Proof. apply imap_length. Qed.

Lemma length_AxpyCols al X Y : length (AxpyCols al X Y) = length Y.
Proof. apply imap_length. Qed.

Lemma length_DiagonalScale side o d A :
  length (DiagonalScale side o d A) = length A.
Proof. apply imap_length. Qed.

Lemma column_Gemm oA al A B be C j :
  j < length C ->
  column (Gemm oA NORMAL al A B be C) j
  = Gemm oA NORMAL al A (column B j) be (column C j).
Proof. intros Hj. unfold Gemm at 1. now rewrite column_imap. Qed.

Lemma column_Axpy al X Y j :
  j < length Y -> column (Axpy al X Y) j = Axpy al (column X j) (column Y j).
Proof. intros Hj. unfold Axpy at 1. now rewrite column_imap. Qed.

Lemma column_AxpyCols al X Y j :
  j < length Y ->
  column (AxpyCols al X Y) j
  = AxpyCols (component al j) (column X j) (column Y j).
Proof. intros Hj. unfold AxpyCols at 1. now rewrite column_imap. Qed.

Lemma column_DiagonalScale o d A j :
  j < length A ->
  column (DiagonalScale RIGHT o d A) j
  = DiagonalScale RIGHT o (component d j) (column A j).
Proof. intros Hj. unfold DiagonalScale at 1. now rewrite column_imap. Qed.

Lemma component_ColumnDot A B out j :
  j < length out ->
  component (ColumnDot A B out) j
  = ColumnDot (column A j) (column B j) (component out j).
Proof. intros Hj. unfold component. now rewrite ColumnDot_nth. Qed.

Lemma component_ColumnNrm2 A out j :
  j < length out ->
  component (ColumnNrm2 A out) j = ColumnNrm2 (column A j) (component out j).
Proof. intros Hj. unfold component. now rewrite ColumnNrm2_nth. Qed.

Lemma component_div k u v j :
  j < k ->
  component (map (fun i => s_div (nth i u s_zero) (nth i v s_zero)) (seq 0 k))
    j
  = map (fun i => s_div (nth i (component u j) s_zero)
                        (nth i (component v j) s_zero)) (seq 0 1).
Proof. intros Hj. unfold component. now rewrite nth_map_seq. Qed.

Lemma component_neg u j :
  j < length u -> component (map s_neg u) j = map s_neg (component u j).
Proof.
  intros Hj. unfold component.
  rewrite (nth_indep _ s_zero (s_neg s_zero)) by now rewrite length_map.
  now rewrite map_nth.
Qed.

Lemma component_Zero u j : component (Zero u) j = Zero (component u j).
Proof. unfold component. now rewrite Zero_nth. Qed.
End Column_facts.

Section Column_run.
Context {T : Type} {SC : Scalar T}.
Variables (A : Matrix (T:=T)) (lambda : T) (M : outplace_precond_t (T:=T)).
Variables (n k : nat).

Abbreviation body_k := (cg_body A lambda M n k false).
Abbreviation body_1 := (cg_body A lambda M n 1 false).
Abbreviation at_k := (state_at A lambda M n k false).
Abbreviation at_1 := (state_at A lambda M n 1 false).

Lemma body_wide itn s : wide k s -> wide k (body_k itn s).
Proof.
  intros (HX & HP & HR & HQ & HH & Hr & Hrt).
  unfold wide, cg_body, precondition.
  cbn [cgX cgP cgR cgQ hermIntermed ressqr rhotmp].
  rewrite length_AxpyCols, !length_Axpy, length_DiagonalScale,
    length_AxpyCols, !length_Gemm, !ColumnDot_length.
  destruct (cgZ s); cbn [Zwrite fst]; auto 10.
Qed.

Ltac width := rewrite ?length_AxpyCols, ?length_Axpy, ?length_DiagonalScale,
    ?length_Gemm, ?ColumnDot_length, ?length_map, ?length_seq; lia.

Lemma body_column itn s j :
  wide k s -> j < k ->
  column_state j (body_k itn s) = body_1 itn (column_state j s).
Proof.
  intros (HX & HP & HR & HQ & HH & Hr & Hrt) Hj.
  destruct s as [sX sB sH sP sR sQ sZ snb srs srho srho0 srt sal smal sbe
                stol ssy].
  cbn [cgX cgP cgR cgQ hermIntermed ressqr rhotmp] in *.
  unfold column_state, cg_body, precondition.
  cbn [cgX cgB hermIntermed cgP cgR cgQ cgZ nrmb ressqr rho rho0 rhotmp
       alpha malpha beta cg_tolerance symm_sections].
  assert (Zval (fst (Zwrite sR sZ sR)) (snd (Zwrite sR sZ sR)) = sR) as ->
    by (destruct sZ; reflexivity).
  assert (fst (Zwrite sR sZ sR) = sR) as -> by (destruct sZ; reflexivity).
  assert (Zval (fst (Zwrite (column sR j) (column_Z sZ j) (column sR j)))
               (snd (Zwrite (column sR j) (column_Z sZ j) (column sR j)))
          = column sR j) as -> by (destruct sZ; reflexivity).
  assert (fst (Zwrite (column sR j) (column_Z sZ j) (column sR j))
          = column sR j) as -> by (destruct sZ; reflexivity).
  assert (column_Z (snd (Zwrite sR sZ sR)) j
          = snd (Zwrite (column sR j) (column_Z sZ j) (column sR j))) as ->
    by (destruct sZ; reflexivity).
  destruct (Nat.eqb itn 0).
  - repeat first
      [ rewrite column_AxpyCols by width
      | rewrite column_Axpy by width
      | rewrite column_Gemm by width
      | rewrite column_DiagonalScale by width
      | rewrite component_ColumnDot by width
      | rewrite component_neg by width
      | rewrite component_div by width
      | rewrite component_Zero ].
    reflexivity.
  - repeat first
      [ rewrite column_AxpyCols by width
      | rewrite column_Axpy by width
      | rewrite column_Gemm by width
      | rewrite column_DiagonalScale by width
      | rewrite component_ColumnDot by width
      | rewrite component_neg by width
      | rewrite component_div by width
      | rewrite component_Zero ].
    reflexivity.
Qed.
End Column_run.

Section Column_call.
Context {T : Type} {SC : Scalar T}.
Variables (A Y X : Matrix (T:=T)) (lambda : T).
Variables (params : krylov_iter_params_t (T:=T)).
Variable M : outplace_precond_t (T:=T).
Variable j : nat.

Abbreviation k := (Width Y).
Abbreviation s0 := (cg_init A Y X lambda params M).
Abbreviation s0j := (cg_init A (column Y j) (column X j) lambda params M).
Abbreviation at_k := (state_at A lambda M (Height A) k false).
Abbreviation at_1 := (state_at A lambda M (Height A) 1 false).

Hypothesis HX : length X = Width Y.
Hypothesis Hj : j < Width Y.

Lemma init_wide : wide k s0.
Proof.
  unfold wide, cg_init.
  cbn [cgX cgP cgR cgQ hermIntermed ressqr rhotmp].
  rewrite length_Axpy, !length_Gemm, ColumnDot_length, ColumnNrm2_length,
    build_compatible_length.
  unfold Width in *. auto 10.
Qed.

Lemma init_column : column_state j s0 = s0j.
Proof.
  unfold column_state, cg_init.
  cbn [cgX cgB hermIntermed cgP cgR cgQ cgZ nrmb ressqr rho rho0 rhotmp
       alpha malpha beta cg_tolerance symm_sections].
  assert (component (ColumnNrm2 (Gemm TRANSPOSE NORMAL s_one A Y s_zero X)
                       (build_compatible (Width Y))) j
          = ColumnNrm2 (Gemm TRANSPOSE NORMAL s_one A (column Y j) s_zero
                          (column X j))
              (build_compatible (Width (column Y j)))) as Hn.
  { rewrite component_ColumnNrm2 by (now rewrite build_compatible_length).
    rewrite column_Gemm by (rewrite HX; exact Hj).
    unfold component, build_compatible. now rewrite nth_repeat. }
  unfold Width in *.
  rewrite component_ColumnDot
    by (rewrite ColumnNrm2_length, build_compatible_length; exact Hj).
  rewrite !Hn.
  rewrite column_Axpy by (rewrite !length_Gemm, HX; exact Hj).
  rewrite !column_Gemm by (rewrite ?length_Gemm, ?HX; exact Hj).
  destruct (negb (is_id M)); reflexivity.
Qed.

Lemma at_wide m : wide k (at_k m s0).
Proof.
  induction m as [|m IH]; [exact init_wide|]. now apply body_wide.
Qed.

Lemma at_column m : column_state j (at_k m s0) = at_1 m s0j.
Proof.
  induction m as [|m IH]; [exact init_column|].
  cbn [state_at]. rewrite <- IH.
  apply body_column; [apply at_wide | exact Hj].
Qed.

Lemma converged_column (s : cg_state (T:=T)) :
  column_converged s j = column_converged (column_state j s) 0.
Proof. reflexivity. Qed.

Lemma all_converged_one (s : cg_state (T:=T)) :
  all_converged 1 s = column_converged s 0.
Proof.
  unfold all_converged, count_converged. cbn [seq filter].
  destruct (column_converged s 0); reflexivity.
Qed.

Lemma block_converged_column m :
  all_converged k (at_k m s0) = true -> all_converged 1 (at_1 m s0j) = true.
Proof.
  intros H. rewrite all_converged_one, <- at_column, <- converged_column.
  rewrite all_converged_iff in H. exact (H j Hj).
Qed.
End Column_call.

Section Column_theorems.
Context {T : Type} {SC : Scalar T}.
Variables (A Y X : Matrix (T:=T)) (lambda : T).
Variables (params : krylov_iter_params_t (T:=T)).
Variable M : outplace_precond_t (T:=T).
Variable j : nat.

Abbreviation r := (factorizedCG A Y X lambda params M).
Abbreviation r_j :=
  (factorizedCG A (column Y j) (column X j) lambda params M).

(** X8: without preconditioner the columns of a block call do not
    interact, in any scalar type: after every number of iterations,
    column [j] of every block and entry [j] of every scalar container are
    what the call on column [j] of [Y] and [X] alone has after as many
    iterations, and the test of column [j] has the same outcome. *)
Theorem columns_are_independent :
  is_id M = true -> length X = Width Y -> j < Width Y ->
  forall m,
    let s := state_at A lambda M (Height A) (Width Y) (negb (is_id M)) m
               (cg_init A Y X lambda params M) in
    let s_j := state_at A lambda M (Height A) 1 (negb (is_id M)) m
                 (cg_init A (column Y j) (column X j) lambda params M) in
    column_state j s = s_j /\
    column_converged s j = column_converged s_j 0.
Proof.
  intros Hid HX Hj m. rewrite Hid. cbn [negb]. split.
  - exact (at_column A Y X lambda params M HX Hj m).
  - rewrite <- (at_column A Y X lambda params M HX Hj m). reflexivity.
Qed.

(** X9: without preconditioner a block call stops no earlier than the
    call on any one of its columns alone, and when the block call returns
    [Success] so does the call on each column alone. *)
Theorem block_waits_for_every_column :
  is_id M = true -> length X = Width Y -> j < Width Y ->
  iterations_of r_j <= iterations_of r /\
  (ret_of r = Some Success -> ret_of r_j = Some Success).
Proof.
  intros Hid HX Hj.
  pose proof (factorizedCG_spec A Y X lambda params M) as (_ & _ & Hr).
  pose proof (factorizedCG_spec A (column Y j) (column X j) lambda params M)
    as (_ & Hno & Hrj).
  change (Width (column Y j)) with 1 in Hno, Hrj.
  rewrite Hid in Hr, Hno, Hrj. cbn [negb] in Hr, Hno, Hrj.
  pose proof (block_converged_column A Y X lambda params M HX Hj) as Hb.
  assert (ret_of r = Some Success ->
          0 < iterations_of r <= Z.to_nat (iter_lim params) /\
          all_converged 1
            (state_at A lambda M (Height A) 1 false (iterations_of r)
               (cg_init A (column Y j) (column X j) lambda params M)) = true
          /\ log_line_defined params = true)
    as HS.
  { intros HS.
    destruct Hr as [(_ & Hm & Hc & Hd)|[(HL & _)|(HN & _)]];
      [|rewrite HL in HS; discriminate|rewrite HN in HS; discriminate].
    split; [exact Hm|]. split; [exact (Hb _ Hc)|exact Hd]. }
  split.
  - destruct (le_lt_dec (iterations_of r_j) (iterations_of r)) as [|Hlt];
      [assumption|exfalso].
    destruct Hr as [(HSr & Hm & _)|[(_ & Hm & _)|(_ & Hm & HL & Hd)]].
    + destruct (HS HSr) as (_ & Hc & _).
      rewrite (Hno _ (conj (proj1 Hm) Hlt)) in Hc. discriminate.
    + destruct Hrj as [(_ & Hmj & _)|[(_ & Hmj & _)|(_ & Hmj & HLj & _)]];
        lia.
    + destruct Hrj as [(_ & _ & _ & Hd')|[(_ & Hmj & Hcj)|(_ & Hmj & _)]];
        [congruence| |lia].
      assert (0 < iterations_of r_j) as Hpos by lia.
      destruct (Hcj Hpos) as (_ & Hd'). congruence.
  - intros HSr. destruct (HS HSr) as (Hm & Hc & Hd).
    destruct Hrj as [(HSj & _)|[(_ & Hmj & Hcj)|(_ & _ & _ & Hd')]];
      [exact HSj|exfalso|congruence].
    destruct (Nat.eq_dec (iterations_of r) (iterations_of r_j)) as [He|Hne].
    + rewrite He in Hc.
      assert (0 < iterations_of r_j) as Hpos by lia.
      destruct (Hcj Hpos) as (Hf & _). congruence.
    + rewrite Hno in Hc by lia. discriminate.
Qed.
End Column_theorems.

(** ** A larger iteration limit *)

Section Budget_facts.
Context {T : Type} {SC : Scalar T}.
Variables (A : Matrix (T:=T)) (lambda : T) (M : outplace_precond_t (T:=T)).
Variables (n k : nat) (isprecond : bool).
Variables (params params' : krylov_iter_params_t (T:=T)).

Abbreviation loop := (cg_loop A lambda M n k isprecond params).
Abbreviation loop' := (cg_loop A lambda M n k isprecond params').

Hypothesis Hd' : log_line_defined params' = true.

Lemma cg_loop_more left extra itn s :
  ret_of (loop left itn s) = Some Success ->
  loop' (left + extra) itn s = loop left itn s.
Proof.
  revert itn s; induction left as [|left IH]; intros itn s;
    [discriminate|].
  cbn [Nat.add]. destruct (log_line_defined params) eqn:Hd.
  - rewrite (cg_loop_step _ _ _ _ _ _ _ _ _ _ Hd),
      (cg_loop_step _ _ _ _ _ _ _ _ _ _ Hd').
    destruct (all_converged k (cg_body A lambda M n k isprecond itn s));
      [reflexivity|apply IH].
  - rewrite (cg_loop_trap _ _ _ _ _ _ _ _ _ _ Hd). discriminate.
Qed.

Lemma cg_loop_resume left extra itn s :
  ret_of (loop left itn s) = Some IterationLimitExceeded ->
  loop' (left + extra) itn s
  = loop' extra (iterations_of (loop left itn s))
      (final_of (loop left itn s)).
Proof.
  revert itn s; induction left as [|left IH]; intros itn s;
    [reflexivity|].
  cbn [Nat.add]. destruct (log_line_defined params) eqn:Hd.
  - rewrite (cg_loop_step _ _ _ _ _ _ _ _ _ _ Hd),
      (cg_loop_step _ _ _ _ _ _ _ _ _ _ Hd').
    destruct (all_converged k (cg_body A lambda M n k isprecond itn s));
      [discriminate|apply IH].
  - rewrite (cg_loop_trap _ _ _ _ _ _ _ _ _ _ Hd). discriminate.
Qed.
End Budget_facts.

Section Budget.
Context {T : Type} {SC : Scalar T}.
Variables (A Y X : Matrix (T:=T)) (lambda : T).
Variables (params params' : krylov_iter_params_t (T:=T)).
Variable M : outplace_precond_t (T:=T).

Abbreviation r := (factorizedCG A Y X lambda params M).
Abbreviation r' := (factorizedCG A Y X lambda params' M).

(** X10: the iteration limit decides only where the loop is cut off.
    Take a second call with the same tolerance, a limit that is not
    smaller and the log line defined.  If the first call returned
    [Success], the second returns the same value after the same number
    of iterations in the same final state; if the first returned
    [IterationLimitExceeded], it was a beginning of the second one,
    which goes on with the remaining iterations from the state and the
    counter the first ended with. *)
Theorem larger_iteration_limit :
  tolerance params' = tolerance params ->
  (iter_lim params <= iter_lim params')%Z ->
  log_line_defined params' = true ->
  (ret_of r = Some Success -> r' = r) /\
  (ret_of r = Some IterationLimitExceeded ->
   r' = cg_loop A lambda M (Height A) (Width Y) (negb (is_id M)) params'
          (Z.to_nat (iter_lim params') - Z.to_nat (iter_lim params))
          (iterations_of r) (final_of r)).
Proof.
  intros Htol Hlim Hd'.
  assert (cg_init A Y X lambda params' M = cg_init A Y X lambda params M)
    as Hinit by (unfold cg_init; now rewrite Htol).
  unfold factorizedCG. rewrite Hinit.
  set (extra := Z.to_nat (iter_lim params') - Z.to_nat (iter_lim params)).
  assert (Z.to_nat (iter_lim params')
          = Z.to_nat (iter_lim params) + extra) as -> by lia.
  split; intros Hr.
  - now apply cg_loop_more.
  - now apply cg_loop_resume.
Qed.
End Budget.

(** ** A tolerance that is not a number *)

Lemma binary64_not_below_nan (x y : float) :
  s_lt x (s_mul nan y) = false.
Proof.
  cbn [s_lt s_mul binary64].
  rewrite ltb_spec, mul_spec.
  change (Prim2SF nan) with S754_nan.
  unfold SF64mul. cbn [SFmul]. unfold SFltb.
  destruct (Prim2SF x) as [sx| [|] | | [|] mx ex]; reflexivity.
Qed.

Section Nan_tolerance.
Variables (A Y X : Matrix (T:=float)) (lambda : float).
Variables (params : krylov_iter_params_t (T:=float)).
Variable M : outplace_precond_t (T:=float).

Abbreviation k := (Width Y).
Abbreviation s0 := (cg_init A Y X lambda params M).
Abbreviation at_ := (state_at A lambda M (Height A) k (negb (is_id M))).
Abbreviation r := (factorizedCG A Y X lambda params M).

(** X11: over [double], a tolerance that is not a number goes through
    lines 75-77 unchanged, as both comparisons are false; then the test
    of line 152 fails for every column after every iteration, and a call
    with at least one column never returns [Success], whatever [A], [Y]
    and [X] are: with the log line defined it runs all the iterations of
    the limit and returns [IterationLimitExceeded]. *)
Theorem nan_tolerance_never_converges :
  tolerance params = nan -> 0 < Width Y ->
  cg_tolerance s0 = nan /\
  (forall j i, column_converged (at_ j s0) i = false) /\
  ret_of r <> Some Success /\
  (log_line_defined params = true ->
   ret_of r = Some IterationLimitExceeded /\
   iterations_of r = Z.to_nat (iter_lim params)).
Proof.
  intros Htol Hk.
  assert (cg_tolerance s0 = nan) as Ht
    by (cbn [cg_tolerance cg_init]; rewrite Htol; vm_compute; reflexivity).
  assert (forall j i, column_converged (at_ j s0) i = false) as Hf.
  { intros j i. unfold column_converged.
    destruct (state_at_constants A lambda M (Height A) k (negb (is_id M))
                j s0) as (_ & _ & -> & _).
    rewrite Ht. apply binary64_not_below_nan. }
  split; [exact Ht|]. split; [exact Hf|].
  destruct (factorizedCG_spec A Y X lambda params M)
    as (_ & _ & [(_ & _ & Hc & _)|[(Hr & Hm & _)|(Hr & _ & _ & Hd)]]).
  - rewrite (all_converged_false _ Hk (Hf _ 0)) in Hc. discriminate.
  - rewrite Hr. split; [discriminate|]. intros _. split; [reflexivity|exact Hm].
  - rewrite Hr. split; [discriminate|]. intros Hd'. congruence.
Qed.
End Nan_tolerance.

(** ** The denominator of the step length *)

Section Exact_energy.
Local Open Scope R_scope.

Lemma rsum_swap a b (f : nat -> nat -> R) :
  rsum a (fun i => rsum b (fun l => f i l))
  = rsum b (fun l => rsum a (fun i => f i l)).
Proof.
  induction a as [|a IH]; simpl.
  - symmetry. apply rsum_zero. reflexivity.
  - rewrite IH, <- rsum_plus. reflexivity.
Qed.

Lemma rsum_scal_l m f a : rsum m (fun l => a * f l) = a * rsum m f.
Proof. induction m as [|m IH]; simpl; [ring|]. rewrite IH. ring. Qed.

Lemma rsum_squares_zero m f :
  rsum m (fun l => f l * f l) = 0 -> forall i, (i < m)%nat -> f i = 0.
Proof.
  intros H0 i Hi. destruct (Req_dec_T (f i) 0) as [|Hne]; [assumption|].
  assert (0 < rsum m (fun l => f l * f l))
    by (apply rsum_squares_pos; eauto).
  lra.
Qed.

Lemma dot_normal_op (A P : Matrix (T:=R)) lambda n d c :
  rsum d (fun i => entry P i c * normal_op A lambda n d P i c)
  = energy A lambda n d P c.
Proof.
  unfold normal_op, energy, sqnorm.
  rewrite (rsum_ext _
    (fun i => rsum n (fun l => entry P i c * entry A l i
                * rsum d (fun m => entry A l m * entry P m c))
              + lambda * INR n * (entry P i c * entry P i c))).
  2:{ intros i _. rewrite Rmult_plus_distr_l, <- rsum_scal_l.
      f_equal; [|ring]. apply rsum_ext. intros; ring. }
  rewrite rsum_plus, rsum_scal_l, rsum_swap. f_equal.
  apply rsum_ext. intros l _.
  rewrite <- rsum_scal.
  apply rsum_ext. intros; ring.
Qed.

Lemma energy_nonneg (A P : Matrix (T:=R)) lambda n d c :
  0 <= lambda -> 0 <= energy A lambda n d P c.
Proof.
  intros Hl. unfold energy, sqnorm.
  assert (0 <= rsum n (fun l => rsum d (fun m => entry A l m * entry P m c)
                   * rsum d (fun m => entry A l m * entry P m c)))
    by (apply rsum_nonneg; intros; nra).
  assert (0 <= rsum d (fun i => entry P i c * entry P i c))
    by (apply rsum_nonneg; intros; nra).
  pose proof (pos_INR n).
  assert (0 <= lambda * INR n) by now apply Rmult_le_pos.
  assert (0 <= lambda * INR n
               * rsum d (fun i => entry P i c * entry P i c))
    by now apply Rmult_le_pos.
  lra.
Qed.

Lemma energy_zero (A P : Matrix (T:=R)) lambda n d c :
  0 < lambda -> (0 < n)%nat -> energy A lambda n d P c = 0 ->
  forall i, (i < d)%nat -> entry P i c = 0.
Proof.
  intros Hl Hn H0. unfold energy, sqnorm in H0.
  assert (0 <= rsum n (fun l => rsum d (fun m => entry A l m * entry P m c)
                   * rsum d (fun m => entry A l m * entry P m c)))
    by (apply rsum_nonneg; intros; nra).
  assert (0 <= rsum d (fun i => entry P i c * entry P i c))
    by (apply rsum_nonneg; intros; nra).
  assert (0 < lambda * INR n)
    by (apply Rmult_lt_0_compat; [exact Hl | apply lt_0_INR; exact Hn]).
  apply (rsum_squares_zero (fun i => entry P i c)). nra.
Qed.
End Exact_energy.

Section Energy_theorem.
Local Open Scope R_scope.
Variables (A Y X : Matrix (T:=R)) (lambda : R).
Variables (params : krylov_iter_params_t (T:=R)).
Variable M : outplace_precond_t (T:=R).
Variables (n d k : nat).

Abbreviation isprecond := (negb (is_id M)).
Abbreviation body := (cg_body A lambda M (Height A) k isprecond).
Abbreviation at_ := (state_at A lambda M (Height A) k isprecond).
Abbreviation s0 := (cg_init A Y X lambda params M).

(** X12: in exact arithmetic, for blocks of matching shapes, the
    denominator of [alpha[c]], [rhotmp[c] = P_c . Q_c], is
    [||A P_c||^2 + lambda*n ||P_c||^2] after every iteration.  So it is
    not negative when [lambda] is not, and with a positive [lambda] and
    at least one row the division of line 139 is by zero only when
    column [c] of the search direction [P] is zero. *)
Theorem step_denominator_is_energy :
  shaped n d A -> shaped n k Y -> shaped d k X -> precond_shaped M d k ->
  forall j c, (c < k)%nat ->
    let s := state_at A lambda M (Height A) k (negb (is_id M)) (S j)
               (cg_init A Y X lambda params M) in
    nth c (rhotmp s) 0 = energy A lambda n d (cgP s) c /\
    (0 <= lambda -> 0 <= nth c (rhotmp s) 0) /\
    (0 < lambda -> (0 < n)%nat -> nth c (rhotmp s) 0 = 0 ->
     forall i, (i < d)%nat -> entry (cgP s) i c = 0).
Proof.
  intros HA HY HX HM j c Hc s.
  assert (nth c (rhotmp s) 0 = energy A lambda n d (cgP s) c) as He.
  { subst s. change (at_ (S j) s0) with (body j (at_ j s0)).
    pose proof (at_wf A lambda params HY HX HM j) as Hwf.
    pose proof (body_spec_iteration lambda HA HM j Hwf) as Hit.
    pose proof (body_wf A lambda j HM Hwf) as (_ & HP' & _ & HQ' & _).
    destruct Hwf as (_ & _ & _ & _ & _ & _ & _ & _ & Hrt).
    rewrite body_rhotmp.
    pose proof (ColumnDot_nth (cgP (body j (at_ j s0)))
                  (cgQ (body j (at_ j s0))) (rhotmp (at_ j s0)) (j:=c)) as Hcd.
    cbn [s_zero reals] in Hcd. rewrite Hcd by lia.
    rewrite (dot_rsum (m:=d))
      by (exact (shaped_col HP' Hc) || exact (shaped_col HQ' Hc)).
    rewrite <- dot_normal_op. apply rsum_ext. intros i Hi.
    destruct (Hit i c Hi Hc) as (_ & HQ & _).
    change (nth i (nth c (cgQ (body j (at_ j s0))) []) 0)
      with (entry (cgQ (body j (at_ j s0))) i c).
    now rewrite HQ. }
  split; [exact He|]. split.
  - intros Hl. rewrite He. now apply energy_nonneg.
  - intros Hl Hn H0. rewrite He in H0. now apply energy_zero with A lambda n.
Qed.
End Energy_theorem.

(** ** The relative residual of the log line *)

Section Exact_log.
Local Open Scope R_scope.

Lemma fold_left_rsum (f : nat -> R) k a :
  fold_left (fun acc i => acc + f i) (seq 0 k) a = a + rsum k f.
Proof.
  induction k as [|k IH]; [simpl; ring|].
  rewrite seq_S, fold_left_app, IH. simpl. ring.
Qed.

Lemma rsum_lt k f g :
  (0 < k)%nat -> (forall c, (c < k)%nat -> f c < g c) -> rsum k f < rsum k g.
Proof.
  intros Hk H. destruct k as [|k]; [lia|]. clear Hk.
  induction k as [|k IH].
  - simpl. specialize (H O (Nat.lt_0_succ 0)). lra.
  - change (rsum (S k) f + f (S k) < rsum (S k) g + g (S k)).
    assert (rsum (S k) f < rsum (S k) g) by (apply IH; intros; apply H; lia).
    specialize (H (S k) (Nat.lt_succ_diag_r (S k))). lra.
Qed.

Lemma below_square r t : R_sqrt.sqrt r < t -> r < t * t.
Proof.
  intros H. pose proof (sqrt_pos r) as Hs.
  destruct (Rlt_dec r 0) as [Hneg|Hpos]; [nra|].
  rewrite <- (sqrt_sqrt r) by lra. nra.
Qed.

Lemma relres_below (s : cg_state (T:=R)) k :
  (0 < k)%nat -> 0 < cg_tolerance s -> all_converged k s = true ->
  0 < total_nrmb k (nrmb s) /\
  relres k (total_nrmb k (nrmb s)) s < cg_tolerance s.
Proof.
  intros Hk Ht Hall. rewrite all_converged_iff in Hall.
  assert (forall c, (c < k)%nat ->
            R_sqrt.sqrt (nth c (ressqr s) 0)
            < cg_tolerance s * nth c (nrmb s) 0) as Hc.
  { intros c Hlt. specialize (Hall c Hlt). unfold column_converged in Hall.
    cbn [s_lt s_sqrt s_mul s_zero reals] in Hall.
    match type of Hall with
    | (if ?dec then _ else _) = _ => destruct dec
    end; [assumption|discriminate]. }
  unfold relres, total_nrmb. cbn [s_div s_sqrt s_add s_mul s_zero reals].
  rewrite (fold_left_rsum (fun i => nth i (ressqr s) 0)).
  rewrite (fold_left_rsum (fun i => nth i (nrmb s) 0 * nth i (nrmb s) 0)).
  rewrite !Rplus_0_l.
  set (Sr := rsum k (fun i => nth i (ressqr s) 0)).
  set (Sn := rsum k (fun i => nth i (nrmb s) 0 * nth i (nrmb s) 0)).
  set (t := cg_tolerance s) in *.
  assert (0 < Sn) as HSn.
  { apply rsum_squares_pos. exists O. split; [exact Hk|].
    pose proof (Hc O Hk) as H0. pose proof (sqrt_pos (nth 0 (ressqr s) 0)).
    intros Hz. rewrite Hz in H0. lra. }
  assert (Sr < t * t * Sn) as Hlt.
  { unfold Sn. rewrite <- rsum_scal_l. apply rsum_lt; [exact Hk|].
    intros c Hlt. pose proof (@below_square _ _ (Hc c Hlt)). lra. }
  pose proof (sqrt_lt_R0 _ HSn) as HsSn.
  assert (R_sqrt.sqrt Sr < t * R_sqrt.sqrt Sn) as Hs.
  { destruct (Rlt_dec Sr 0) as [Hneg|Hpos].
    - rewrite sqrt_neg_0 by lra. apply Rmult_lt_0_compat; assumption.
    - replace (t * R_sqrt.sqrt Sn) with (R_sqrt.sqrt (t * t * Sn)).
      + apply sqrt_lt_1; nra.
      + rewrite sqrt_mult by nra. rewrite sqrt_square by lra. reflexivity. }
  split; [exact HsSn|].
  apply (Rmult_lt_reg_r (R_sqrt.sqrt Sn)); [exact HsSn|].
  unfold Rdiv. rewrite Rmult_assoc, Rinv_l by lra. lra.
Qed.
End Exact_log.

Section Log_theorem.
Local Open Scope R_scope.
Variables (A Y X : Matrix (T:=R)) (lambda : R).
Variables (params : krylov_iter_params_t (T:=R)).
Variable M : outplace_precond_t (T:=R).

Abbreviation k := (Width Y).
Abbreviation s0 := (cg_init A Y X lambda params M).
Abbreviation r := (factorizedCG A Y X lambda params M).

(** X13: in exact arithmetic, when a call with at least one column
    returns [Success], the relative residual that the log line of the
    last iteration prints, [sqrt(sum of ressqr) / total_nrmb] with the
    [total_nrmb] computed before the loop, is below the clamped
    tolerance, hence below one; and [total_nrmb] is positive, so that
    this division is not by zero. *)
Theorem logged_relres_below_tolerance :
  (0 < Width Y)%nat -> ret_of r = Some Success ->
  0 < total_nrmb k (nrmb s0) /\
  relres k (total_nrmb k (nrmb s0)) (final_of r)
  < clamp_tolerance (tolerance params) /\
  relres k (total_nrmb k (nrmb s0)) (final_of r) < 1.
Proof.
  intros Hk HS.
  destruct (factorizedCG_spec A Y X lambda params M)
    as (Hfin & _ & [(_ & _ & Hall & _)|[(HL & _)|(HN & _)]]);
    [|rewrite HL in HS; discriminate|rewrite HN in HS; discriminate].
  rewrite <- Hfin in Hall.
  assert (nrmb (final_of r) = nrmb s0 /\
          cg_tolerance (final_of r) = clamp_tolerance (tolerance params))
    as (Hn & Ht).
  { rewrite Hfin.
    destruct (state_at_constants A lambda M (Height A) k (negb (is_id M))
                (iterations_of r) s0) as (_ & Hn & Ht & _).
    split; [exact Hn | exact Ht]. }
  pose proof (proj1 clamp_exact_band (tolerance params)) as Hband.
  pose proof eps32_exact_bounds as He.
  assert (0 < cg_tolerance (final_of r)) as Hpos by (rewrite Ht; lra).
  destruct (relres_below (final_of r) Hk Hpos Hall) as (H1 & H2).
  rewrite Hn, Ht in *.
  split; [exact H1|]. split; [exact H2|lra].
Qed.
End Log_theorem.

(** ** A step length that is not a number *)

Section Nan_facts.

Lemma mul_nan_l (y : float) : s_mul nan y = nan.
Proof.
  apply nan_is. cbn [s_mul binary64]. rewrite mul_spec. reflexivity.
Qed.

Lemma mul_nan_r (x : float) : s_mul x nan = nan.
Proof.
  apply nan_is. cbn [s_mul binary64]. rewrite mul_spec.
  change (Prim2SF nan) with S754_nan.
  destruct (Prim2SF x) as [sx| [|] | | [|] mx ex]; reflexivity.
Qed.

Lemma add_nan_l (y : float) : s_add nan y = nan.
Proof.
  apply nan_is. cbn [s_add binary64]. rewrite add_spec. reflexivity.
Qed.

Lemma add_nan_r (x : float) : s_add x nan = nan.
Proof.
  apply nan_is. cbn [s_add binary64]. rewrite add_spec.
  change (Prim2SF nan) with S754_nan.
  destruct (Prim2SF x) as [sx| [|] | | [|] mx ex]; reflexivity.
Qed.

Lemma nan_not_below (y : float) : s_lt (s_sqrt nan) y = false.
Proof.
  cbn [s_lt s_sqrt binary64]. rewrite ltb_spec.
  change (Prim2SF (sqrt nan)) with S754_nan. reflexivity.
Qed.

Lemma dot_from_nan (u v : Vector (T:=float)) : dot_from nan u v = nan.
Proof.
  revert v. induction u as [|a u IH]; intros [|b v]; cbn [dot_from];
    try reflexivity.
  rewrite add_nan_l. apply IH.
Qed.

Lemma dot_nan (u : Vector (T:=float)) :
  0 < length u -> nth 0 u s_zero = nan -> dot u u = nan.
Proof.
  destruct u as [|a u]; cbn [length nth]; [lia|]. intros _ ->.
  unfold dot. cbn [dot_from]. rewrite mul_nan_l, add_nan_r.
  apply dot_from_nan.
Qed.
End Nan_facts.

Section Nan_step.
Variables (A : Matrix (T:=float)) (lambda : float).
Variable M : outplace_precond_t (T:=float).
Variables (n d k c : nat).

Abbreviation isprecond := (negb (is_id M)).
Abbreviation body := (cg_body A lambda M (Height A) k isprecond).
Abbreviation at_ := (state_at A lambda M (Height A) k isprecond).

Hypothesis Hd : 0 < d.
Hypothesis Hc : c < k.
Hypothesis HM : precond_shaped M d k.

Lemma body_poisoned itn s :
  wf_state M n d k s ->
  nth c (alpha (body itn s)) s_zero = nan \/
  (forall i, i < d -> entry (cgX s) i c = nan /\ entry (cgR s) i c = nan) ->
  forall i, i < d ->
    entry (cgX (body itn s)) i c = nan /\ entry (cgR (body itn s)) i c = nan.
Proof.
  intros Hs Hor i Hi.
  pose proof Hs as (HsX & _ & HsR & _).
  destruct (precondition_wf Hs) as (HR2 & _).
  assert (nth c (malpha (body itn s)) s_zero
          = s_neg (nth c (alpha (body itn s)) s_zero)) as Hma.
  { rewrite body_malpha.
    rewrite (nth_indep _ s_zero (s_neg s_zero))
      by (rewrite length_map, body_alpha_length; exact Hc).
    now rewrite map_nth. }
  rewrite body_X at 1. rewrite body_R at 1.
  rewrite HR2, (entry_AxpyCols _ _ HsX Hi Hc), (entry_AxpyCols _ _ HsR Hi Hc).
  rewrite Hma.
  destruct Hor as [Hal|Hinv].
  - rewrite Hal. change (s_neg nan) with nan.
    rewrite !mul_nan_l, !add_nan_l. split; reflexivity.
  - destruct (Hinv i Hi) as (-> & ->). rewrite !add_nan_r.
    split; reflexivity.
Qed.

Lemma poisoned_fails itn s :
  wf_state M n d k s ->
  (forall i, i < d -> entry (cgR (body itn s)) i c = nan) ->
  nth c (ressqr (body itn s)) s_zero = nan /\
  column_converged (body itn s) c = false.
Proof.
  intros Hs HR.
  pose proof (body_wf A lambda itn HM Hs) as (_ & _ & HR' & _).
  destruct Hs as (_ & _ & _ & _ & _ & _ & Hr & _).
  assert (nth c (ressqr (body itn s)) s_zero = nan) as Hn.
  { rewrite body_ressqr by (rewrite Hr; exact Hc).
    apply dot_nan; [rewrite (shaped_col HR' Hc); exact Hd|].
    exact (HR 0 Hd). }
  split; [exact Hn|].
  unfold column_converged. rewrite Hn. apply nan_not_below.
Qed.

Lemma poisoned_from j s m :
  wf_state M n d k s ->
  nth c (alpha (at_ (S j) s)) s_zero = nan ->
  S j <= m ->
  (forall i, i < d ->
     entry (cgX (at_ m s)) i c = nan /\ entry (cgR (at_ m s)) i c = nan) /\
  column_converged (at_ m s) c = false.
Proof.
  intros Hs Hal Hm.
  destruct m as [|m]; [lia|].
  assert (forall i, i < d ->
            entry (cgX (at_ (S m) s)) i c = nan /\
            entry (cgR (at_ (S m) s)) i c = nan) as Hinv.
  { induction m as [|m IH].
    - assert (j = 0) as -> by lia.
      change (at_ 1 s) with (body 0 (at_ 0 s)) in *.
      apply body_poisoned; [exact Hs | left; exact Hal].
    - change (at_ (S (S m)) s) with (body (S m) (at_ (S m) s)) in *.
      apply body_poisoned; [now apply state_at_wf|].
      destruct (Nat.eq_dec j (S m)) as [->|Hne]; [left; exact Hal|].
      right. apply IH. lia. }
  split; [exact Hinv|].
  change (at_ (S m) s) with (body m (at_ m s)) in *.
  apply poisoned_fails; [now apply state_at_wf|].
  intros i Hi. exact (proj2 (Hinv i Hi)).
Qed.
End Nan_step.

Section Nan_call.
Variables (A Y X : Matrix (T:=float)) (lambda : float).
Variables (params : krylov_iter_params_t (T:=float)).
Variable M : outplace_precond_t (T:=float).
Variables (n d k c j : nat).

Abbreviation s0 := (cg_init A Y X lambda params M).
Abbreviation r := (factorizedCG A Y X lambda params M).

(** X14: over [double], a step length that is not a number is never
    recovered from.  For blocks of matching shapes with at least one row
    in [X]: if [alpha[c]] is a NaN in iteration [j + 1], for instance
    from the division [0 / 0] of line 139, then after that iteration and
    after every later one all of column [c] of [X] and of [R] is NaN and
    column [c] fails the test of line 152; a call that runs that
    iteration does not return [Success] and ends with column [c] of [X]
    all NaN, and with the log line defined it returns
    [IterationLimitExceeded]. *)
Theorem nan_step_poisons_column :
  shaped n k Y -> shaped d k X -> precond_shaped M d k ->
  0 < d -> c < k ->
  nth c (alpha (state_at A lambda M (Height A) k (negb (is_id M)) (S j) s0))
    s_zero = nan ->
  (forall m, S j <= m ->
     let s := state_at A lambda M (Height A) k (negb (is_id M)) m s0 in
     (forall i, i < d ->
        entry (cgX s) i c = nan /\ entry (cgR s) i c = nan) /\
     column_converged s c = false) /\
  (S j <= iterations_of r ->
   ret_of r <> Some Success /\
   (log_line_defined params = true ->
    ret_of r = Some IterationLimitExceeded) /\
   forall i, i < d -> entry (cgX (final_of r)) i c = nan).
Proof.
  intros HY HX HM Hd Hc Hal.
  pose proof (init_wf A lambda M params HY HX) as Hwf.
  pose proof (fun m => @poisoned_from A lambda M n d k c Hd Hc HM j s0 m
                        Hwf Hal) as Hp.
  split; [exact Hp|].
  intros Hrun.
  pose proof (factorizedCG_spec A Y X lambda params M) as Hspec.
  assert (Width Y = k) as Hk by (destruct HY; assumption).
  rewrite Hk in Hspec. destruct Hspec as (Hfin & _ & Hret).
  destruct (Hp _ Hrun) as (Hinv & Hf).
  assert (ret_of r <> Some Success /\
          (log_line_defined params = true ->
           ret_of r = Some IterationLimitExceeded)) as (H1 & H2).
  { destruct Hret as [(_ & _ & Hall & _)|[(HL & _)|(HN & _ & _ & Hd')]].
    - rewrite (all_converged_false _ Hc Hf) in Hall. discriminate.
    - rewrite HL. split; [discriminate|reflexivity].
    - rewrite HN. split; [discriminate|]. intros Hd''. congruence. }
  split; [exact H1|]. split; [exact H2|].
  intros i Hi. rewrite Hfin. exact (proj1 (Hinv i Hi)).
Qed.
End Nan_call.

(** ** Instances of the further properties that have hypotheses *)

Lemma no_iteration_allowed_witness :
  (iter_lim (quiet_params 0x1p-20%float (-3)) <= 0)%Z /\
  ret_of (diag12_run 0x1p-20%float (-3)) = Some IterationLimitExceeded /\
  iterations_of (diag12_run 0x1p-20%float (-3)) = 0 /\
  final_of (diag12_run 0x1p-20%float (-3)) = diag12_init 0x1p-20%float (-3) /\
  cgX (final_of (diag12_run 0x1p-20%float (-3))) = diag12_X /\
  symm_sections (final_of (diag12_run 0x1p-20%float (-3))) = 1.
Proof.
  assert (iter_lim (quiet_params 0x1p-20%float (-3)) <= 0)%Z as HL
    by (simpl; lia).
  split; [exact HL|].
  exact (no_iteration_allowed diag12_A diag12_Y diag12_X s_zero
           (quiet_params 0x1p-20%float (-3)) outplace_id_precond_t HL).
Defined.

Lemma no_right_hand_side_witness :
  Width ([] : Matrix (T:=float)) = 0 /\
  (1 <= iter_lim (quiet_params 0x1p-20%float 5))%Z /\
  iterations_of (factorizedCG diag12_A [] [] s_zero
                   (quiet_params 0x1p-20%float 5) outplace_id_precond_t) = 1 /\
  ret_of (factorizedCG diag12_A [] [] s_zero (quiet_params 0x1p-20%float 5)
            outplace_id_precond_t) = Some Success.
Proof.
  assert (1 <= iter_lim (quiet_params 0x1p-20%float 5))%Z as HL
    by (simpl; lia).
  split; [reflexivity|]. split; [exact HL|].
  destruct (no_right_hand_side diag12_A [] [] s_zero
              (quiet_params 0x1p-20%float 5) outplace_id_precond_t eq_refl HL)
    as (Hm & HS & _).
  split; [exact Hm | exact (HS eq_refl)].
Defined.

Lemma recurrence_keeps_true_residual_witness :
  shaped 2 2 (diag12_A (T:=R)) /\ shaped 2 1 (diag12_Y (T:=R)) /\
  shaped 2 1 (diag12_X (T:=R)) /\
  precond_shaped (outplace_id_precond_t (T:=R)) 2 1 /\
  (forall j i c, i < 2 -> c < 1 ->
     entry (cgR (diag12_at (/ 2)%R 5 j)) i c
     = true_residual diag12_A diag12_Y 0%R 2 2
         (cgX (diag12_at (/ 2)%R 5 j)) i c) /\
  (forall i c, i < 2 -> c < 1 ->
     entry (cgR (final_of (diag12_run (/ 2)%R 5))) i c
     = true_residual diag12_A diag12_Y 0%R 2 2
         (cgX (final_of (diag12_run (/ 2)%R 5))) i c).
Proof.
  destruct shaped_diag12 as (HA & HY & HX).
  split; [exact HA|]. split; [exact HY|]. split; [exact HX|].
  split; [exact (id_precond_shaped (m:=2) (k:=1))|].
  exact (recurrence_keeps_true_residual 0%R (quiet_params (/ 2)%R 5)
           HA HY HX (id_precond_shaped (m:=2) (k:=1))).
Defined.

Lemma status_bounds_residual_witness :
  shaped 2 2 (diag12_A (T:=R)) /\ shaped 2 1 (diag12_Y (T:=R)) /\
  shaped 2 1 (diag12_X (T:=R)) /\
  precond_shaped (outplace_id_precond_t (T:=R)) 2 1 /\
  (ret_of (diag12_run (/ 2)%R 5) = Some Success ->
   forall c, c < 1 ->
     (residual_norm diag12_A diag12_Y 0 2 2
        (cgX (final_of (diag12_run (/ 2) 5))) c
      < clamp_tolerance (/ 2) * rhs_norm diag12_A diag12_Y 2 2 c)%R /\
     (residual_norm diag12_A diag12_Y 0 2 2
        (cgX (final_of (diag12_run (/ 2) 5))) c
      < rhs_norm diag12_A diag12_Y 2 2 c)%R).
Proof.
  destruct shaped_diag12 as (HA & HY & HX).
  split; [exact HA|]. split; [exact HY|]. split; [exact HX|].
  split; [exact (id_precond_shaped (m:=2) (k:=1))|].
  exact (proj1 (status_bounds_residual 0%R (quiet_params (/ 2)%R 5)
                  HA HY HX (id_precond_shaped (m:=2) (k:=1)))).
Defined.

Lemma columns_are_independent_witness :
  is_id (outplace_id_precond_t (T:=float)) = true /\
  length (zero_matrix (T:=float) 2 2) = Width (identity (T:=float) 2) /\
  1 < Width (identity (T:=float) 2) /\
  forall m,
    column_state 1
      (state_at diag12_A s_zero outplace_id_precond_t 2 2 false m
         (cg_init diag12_A (identity 2) (zero_matrix 2 2) s_zero
            (quiet_params 0x1p-20%float 5) outplace_id_precond_t))
    = state_at diag12_A s_zero outplace_id_precond_t 2 1 false m
        (cg_init diag12_A (column (identity 2) 1)
           (column (zero_matrix 2 2) 1) s_zero
           (quiet_params 0x1p-20%float 5) outplace_id_precond_t).
Proof.
  split; [reflexivity|]. split; [reflexivity|]. split; [simpl; lia|].
  intros m.
  exact (proj1 (columns_are_independent diag12_A (identity 2)
                  (zero_matrix 2 2) s_zero (quiet_params 0x1p-20%float 5)
                  outplace_id_precond_t (j:=1) eq_refl eq_refl
                  (Nat.lt_succ_diag_r 1) m)).
Defined.

Lemma block_waits_for_every_column_witness :
  is_id (outplace_id_precond_t (T:=float)) = true /\
  length (zero_matrix (T:=float) 2 2) = Width (identity (T:=float) 2) /\
  1 < Width (identity (T:=float) 2) /\
  iterations_of
    (factorizedCG diag12_A (column (identity 2) 1)
       (column (zero_matrix 2 2) 1) s_zero (quiet_params 0x1p-20%float 5)
       outplace_id_precond_t)
  <= iterations_of
       (factorizedCG diag12_A (identity 2) (zero_matrix 2 2) s_zero
          (quiet_params 0x1p-20%float 5) outplace_id_precond_t).
Proof.
  split; [reflexivity|]. split; [reflexivity|]. split; [simpl; lia|].
  exact (proj1 (block_waits_for_every_column diag12_A (identity 2)
                  (zero_matrix 2 2) s_zero (quiet_params 0x1p-20%float 5)
                  outplace_id_precond_t (j:=1) eq_refl eq_refl
                  (Nat.lt_succ_diag_r 1))).
Defined.

Lemma larger_iteration_limit_witness :
  tolerance (quiet_params 0x1p-20%float 3)
  = tolerance (quiet_params 0x1p-20%float 1) /\
  (iter_lim (quiet_params 0x1p-20%float 1)
   <= iter_lim (quiet_params 0x1p-20%float 3))%Z /\
  log_line_defined (quiet_params 0x1p-20%float 3) = true /\
  (ret_of (diag12_run 0x1p-20%float 1) = Some IterationLimitExceeded ->
   diag12_run 0x1p-20%float 3
   = cg_loop diag12_A s_zero outplace_id_precond_t 2 1 false
       (quiet_params 0x1p-20%float 3) (3 - 1)
       (iterations_of (diag12_run 0x1p-20%float 1))
       (final_of (diag12_run 0x1p-20%float 1))).
Proof.
  assert (iter_lim (quiet_params 0x1p-20%float 1)
          <= iter_lim (quiet_params 0x1p-20%float 3))%Z as HL
    by (simpl; lia).
  split; [reflexivity|]. split; [exact HL|]. split; [reflexivity|].
  exact (proj2 (larger_iteration_limit diag12_A diag12_Y diag12_X s_zero
                  (quiet_params 0x1p-20%float 1)
                  (quiet_params 0x1p-20%float 3) outplace_id_precond_t
                  eq_refl HL eq_refl)).
Defined.

Lemma nan_tolerance_never_converges_witness :
  tolerance (quiet_params nan 3) = nan /\
  0 < Width (diag12_Y (T:=float)) /\
  cg_tolerance (diag12_init nan 3) = nan /\
  (forall j i, column_converged (diag12_at nan 3 j) i = false) /\
  ret_of (diag12_run nan 3) <> Some Success /\
  ret_of (diag12_run nan 3) = Some IterationLimitExceeded /\
  iterations_of (diag12_run nan 3) = Z.to_nat 3.
Proof.
  split; [reflexivity|]. split; [simpl; lia|].
  destruct (nan_tolerance_never_converges diag12_A diag12_Y diag12_X s_zero
              (quiet_params nan 3) outplace_id_precond_t eq_refl
              (Nat.lt_0_succ 0)) as (Ht & Hf & Hn & Hl).
  split; [exact Ht|]. split; [exact Hf|]. split; [exact Hn|].
  exact (Hl eq_refl).
Defined.

Lemma step_denominator_is_energy_witness :
  shaped 2 2 (diag12_A (T:=R)) /\ shaped 2 1 (diag12_Y (T:=R)) /\
  shaped 2 1 (diag12_X (T:=R)) /\
  precond_shaped (outplace_id_precond_t (T:=R)) 2 1 /\
  forall j c, c < 1 ->
    nth c (rhotmp (diag12_at (/ 2)%R 5 (S j))) 0%R
    = energy diag12_A 0%R 2 2 (cgP (diag12_at (/ 2)%R 5 (S j))) c.
Proof.
  destruct shaped_diag12 as (HA & HY & HX).
  split; [exact HA|]. split; [exact HY|]. split; [exact HX|].
  split; [exact (id_precond_shaped (m:=2) (k:=1))|].
  intros j c Hc.
  exact (proj1 (step_denominator_is_energy 0%R (quiet_params (/ 2)%R 5)
                  HA HY HX (id_precond_shaped (m:=2) (k:=1)) j Hc)).
Defined.

Lemma identity2_success :
  ret_of (factorizedCG (identity 2) (identity 2) (zero_matrix 2 2) 0%R
            (quiet_params (/ 2)%R 50) outplace_id_precond_t) = Some Success.
Proof.
  assert (forall c, c < 2 ->
            exists i, i < 2 /\ entry (identity (T:=R) 2) i c <> 0%R) as Hnz.
  { intros c Hc. exists c. split; [exact Hc|].
    rewrite entry_identity, Nat.eqb_refl by exact Hc.
    cbn [s_one reals]. lra. }
  unfold factorizedCG.
  change (Z.to_nat (iter_lim (quiet_params (/ 2)%R 50))) with (S 49).
  change (Width (identity (T:=R) 2)) with 2.
  rewrite cg_loop_step by reflexivity.
  rewrite (recovery_converged (quiet_params (/ 2)%R 50) (shaped_identity 2)
             Hnz).
  reflexivity.
Qed.

Lemma logged_relres_below_tolerance_witness :
  0 < Width (identity (T:=R) 2) /\
  ret_of (factorizedCG (identity 2) (identity 2) (zero_matrix 2 2) 0%R
            (quiet_params (/ 2)%R 50) outplace_id_precond_t)
  = Some Success /\
  (relres 2
     (total_nrmb 2
        (nrmb (cg_init (identity 2) (identity 2) (zero_matrix 2 2) 0%R
                 (quiet_params (/ 2)%R 50) outplace_id_precond_t)))
     (final_of (factorizedCG (identity 2) (identity 2) (zero_matrix 2 2) 0%R
                  (quiet_params (/ 2)%R 50) outplace_id_precond_t))
   < clamp_tolerance (/ 2))%R.
Proof.
  split; [simpl; lia|]. split; [exact identity2_success|].
  exact (proj1 (proj2 (logged_relres_below_tolerance (identity 2) (identity 2)
                         (zero_matrix 2 2) 0%R (quiet_params (/ 2)%R 50)
                         outplace_id_precond_t (Nat.lt_0_succ 1)
                         identity2_success))).
Defined.

Lemma nan_step_poisons_column_witness :
  shaped 1 1 (zero_rhs_Y (T:=float)) /\
  shaped 1 1 (zero_matrix (T:=float) 1 1) /\
  precond_shaped (outplace_id_precond_t (T:=float)) 1 1 /\
  0 < 1 /\ 0 < 1 /\
  nth 0 (alpha (zero_rhs_at 0x1p-20%float 3 1)) s_zero = nan /\
  (forall m, 1 <= m ->
     (forall i, i < 1 ->
        entry (cgX (zero_rhs_at 0x1p-20%float 3 m)) i 0 = nan /\
        entry (cgR (zero_rhs_at 0x1p-20%float 3 m)) i 0 = nan) /\
     column_converged (zero_rhs_at 0x1p-20%float 3 m) 0 = false) /\
  1 <= iterations_of (zero_rhs_run 0x1p-20%float 3) /\
  ret_of (zero_rhs_run 0x1p-20%float 3) <> Some Success /\
  ret_of (zero_rhs_run 0x1p-20%float 3) = Some IterationLimitExceeded /\
  (forall i, i < 1 ->
     entry (cgX (final_of (zero_rhs_run 0x1p-20%float 3))) i 0 = nan).
Proof.
  assert (shaped 1 1 (zero_rhs_Y (T:=float))) as HY
    by (split; [reflexivity | repeat constructor]).
  assert (precond_shaped (outplace_id_precond_t (T:=float)) 1 1) as HM
    by (intros R1 z HR1 _; exact HR1).
  assert (nth 0 (alpha (zero_rhs_at 0x1p-20%float 3 1)) s_zero = nan) as Hal
    by (vm_compute; reflexivity).
  split; [exact HY|]. split; [exact (shaped_zero_matrix 1 1)|].
  assert (1 <= iterations_of (zero_rhs_run 0x1p-20%float 3)) as Hrun
    by (vm_compute; lia).
  split; [exact HM|]. split; [lia|]. split; [lia|]. split; [exact Hal|].
  destruct (@nan_step_poisons_column (identity 1) zero_rhs_Y
              (zero_matrix 1 1) 0%float (quiet_params 0x1p-20%float 3)
              outplace_id_precond_t 1 1 1 0 0 HY (shaped_zero_matrix 1 1) HM
              (Nat.lt_0_succ 0) (Nat.lt_0_succ 0) Hal) as (Hall & Hend).
  destruct (Hend Hrun) as (Hn & Hl & HX).
  split; [exact Hall|]. split; [exact Hrun|]. split; [exact Hn|].
  split; [exact (Hl eq_refl) | exact HX].
Defined.
